(** * proctor_schedule: the calendar pipeline of [make_calendar.py]

    A shallow embedding of [clean_proctor_schedule], [create_events],
    [check_for_double_bookings] and [main], together with the properties
    of the transformation pipeline.

    Conventions.  A polars cell is an [option]: [None] is null.  A
    frame is the list of its rows, in frame order.  Code that can raise
    returns [option]: [None] means that an exception left the function. *)

From Stdlib Require Import ZArith Lia Ascii String DecimalString.
From stdpp Require Import base list option strings sorting.

Local Open Scope Z_scope.

(** ** Data model *)

(** The columns of the sheet that are not [Proctor*] columns.  [Date]
    is a polars Date (days since the epoch); the raw [Start time] and
    [End time] are naive datetimes in milliseconds (their date part may
    be the 1899 placeholder of the spreadsheet); after
    [clean_proctor_schedule] they are instants in milliseconds. *)
Record Key := mkKey {
  Date : option Z;
  Start_time : option Z;
  End_time : option Z;
  Location : option string;
  Subject : option string;
  Course : option string;
  Section_ : option string;
  Instructor : option string;
  Students_enrolled : option Z
}.

#[global] Instance Key_eq_dec : EqDecision Key.
Proof. solve_decision. Defined.

(** One row of the sheet: the shared columns and the cells of the
    columns "Proctor 1", "Proctor 2", ... in column order. *)
Record RawRow := mkRawRow {
  raw_key : Key;
  raw_proctors : list (option string)
}.

(** A row of the unpivoted frame, the [variable] column dropped. *)
Record LongRow := mkLongRow {
  long_key : Key;
  long_proctor : option string
}.

#[global] Instance LongRow_eq_dec : EqDecision LongRow.
Proof. solve_decision. Defined.

(** ** [clean_proctor_schedule]: unpivot, drop_nulls, fill_null *)

(** Number of [Proctor*] columns of the frame; a row with fewer cells
    is read as padded with nulls. *)
Definition proctor_columns (sched : list RawRow) : nat :=
  max_list (length ∘ raw_proctors <$> sched).

(** The cell of row [r] in the [j]-th Proctor column. *)
Definition proctor_cell (j : nat) (r : RawRow) : option string :=
  mjoin (raw_proctors r !! j).

(** The part of the unpivoted frame that comes from the [j]-th
    Proctor column: every row of the sheet, in sheet order, with its
    cell of that column. *)
Definition column_frame (j : nat) (sched : list RawRow) : list LongRow :=
  (λ r, mkLongRow (raw_key r) (proctor_cell j r)) <$> sched.

(** [unpivot(cs.starts_with("Proctor"), index=~cs.starts_with("Proctor"),
    value_name="Proctor")] followed by [drop("variable")]: the frame is
    laid out one Proctor column after the other. *)
Definition unpivot (sched : list RawRow) : list LongRow :=
  seq 0 (proctor_columns sched) ≫= λ j, column_frame j sched.

(** [drop_nulls("Proctor")]. *)
Definition drop_nulls (df : list LongRow) : list LongRow :=
  filter (λ r, is_Some (long_proctor r)) df.

(** Forward fill of one cell: a null takes the last value seen above. *)
Definition fill_cell {A} (prev cur : option A) : option A :=
  match cur with
  | Some _ => cur
  | None => prev
  end.

Definition fill_key (prev cur : Key) : Key :=
  {| Date := fill_cell (Date prev) (Date cur);
     Start_time := fill_cell (Start_time prev) (Start_time cur);
     End_time := fill_cell (End_time prev) (End_time cur);
     Location := fill_cell (Location prev) (Location cur);
     Subject := fill_cell (Subject prev) (Subject cur);
     Course := fill_cell (Course prev) (Course cur);
     Section_ := fill_cell (Section_ prev) (Section_ cur);
     Instructor := fill_cell (Instructor prev) (Instructor cur);
     Students_enrolled :=
       fill_cell (Students_enrolled prev) (Students_enrolled cur) |}.

Definition fill_row (prev cur : LongRow) : LongRow :=
  {| long_key := fill_key (long_key prev) (long_key cur);
     long_proctor := fill_cell (long_proctor prev) (long_proctor cur) |}.

Definition null_key : Key :=
  mkKey None None None None None None None None None.

Definition null_row : LongRow := mkLongRow null_key None.

(** The fill of the rows below a row whose filled value is [prev]. *)
Fixpoint fill_from (prev : LongRow) (df : list LongRow) : list LongRow :=
  match df with
  | [] => []
  | r :: df' => let r' := fill_row prev r in r' :: fill_from r' df'
  end.

(** [fill_null(strategy="forward")]: every column of the frame is
    filled downwards; nothing is above the first row. *)
Definition fill_null_forward (df : list LongRow) : list LongRow :=
  fill_from null_row df.

(** The frame that reaches [group_by] in [clean_proctor_schedule]. *)
Definition long_frame (sched : list RawRow) : list LongRow :=
  fill_null_forward (drop_nulls (unpivot sched)).

(** A column of the long frame that is not the Proctor column. *)
Inductive column : Type → Type :=
  | cDate : column Z
  | cStart_time : column Z
  | cEnd_time : column Z
  | cLocation : column string
  | cSubject : column string
  | cCourse : column string
  | cSection : column string
  | cInstructor : column string
  | cStudents_enrolled : column Z.

Definition cell {A} (c : column A) : Key → option A :=
  match c with
  | cDate => Date
  | cStart_time => Start_time
  | cEnd_time => End_time
  | cLocation => Location
  | cSubject => Subject
  | cCourse => Course
  | cSection => Section_
  | cInstructor => Instructor
  | cStudents_enrolled => Students_enrolled
  end.

(** Where the copy of the [i]-th row of the sheet for the [j]-th
    Proctor column stands in [drop_nulls (unpivot sched)]: after the
    rows kept from the columns before [j] and from the rows above [i]
    in column [j]. *)
Definition copy_index (sched : list RawRow) (i j : nat) : nat :=
  length (drop_nulls ((seq 0 j ≫= λ j', column_frame j' sched)
                      ++ take i (column_frame j sched))).

(** ** [clean_proctor_schedule]: group_by, agg, combined timestamps *)

(** A row of the cleaned frame: the shared columns and the list column
    of proctors made by [agg(pl.col("Proctor").unique())]. *)
Record NormalizedEvent := mkEvent {
  ev_key : Key;
  Proctor : list (option string)
}.

Definition ms_per_day : Z := 86400000.

(** ** [create_events]: Python string helpers *)

Local Open Scope string_scope.
Local Open Scope list_scope.

Definition nl : string := String (Ascii.ascii_of_nat 10) "".

(** [s.split("-")[0]]: the text before the first dash, all of [s] when
    it has none. *)
Fixpoint before_dash (s : string) : string :=
  match s with
  | "" => ""
  | String c s' => if Ascii.eqb c "-"%char then "" else String c (before_dash s')
  end.

(** [str.replace] for a non-empty [old], scanning left to right: [skip]
    counts the characters of a match that are still to be passed. *)
Fixpoint replace_from (old new : string) (skip : nat) (s : string) : string :=
  match s with
  | "" => ""
  | String c s' =>
      match skip with
      | S n => replace_from old new n s'
      | O =>
          if String.prefix old s
          then new +:+ replace_from old new (String.length old - 1) s'
          else String c (replace_from old new 0 s')
      end
  end.

(** A text is the sequence of its bytes in UTF-8; the bytes 10xxxxxx
    continue the character that the byte before them began. *)
Definition is_continuation (c : ascii) : bool :=
  let n := nat_of_ascii c in (128 <=? n)%nat && (n <? 192)%nat.

(** [str.len_chars()] and Python's [len]: the number of characters. *)
Fixpoint len_chars (s : string) : nat :=
  match s with
  | "" => 0%nat
  | String c s' =>
      if is_continuation c then len_chars s' else S (len_chars s')
  end.

(** [str.replace] for the empty [old]: [new] goes before every
    character and at the end. *)
Fixpoint replace_empty (new : string) (s : string) : string :=
  match s with
  | "" => new
  | String c s' =>
      if is_continuation c
      then String c (replace_empty new s')
      else new +:+ String c (replace_empty new s')
  end.

(** [s.replace(old, new)]. *)
Definition replace (old new s : string) : string :=
  match old with
  | "" => replace_empty new s
  | _ => replace_from old new 0 s
  end.

(** [sep.join(l)]. *)
Definition join (sep : string) (l : list string) : string :=
  String.concat sep l.

(** [str(x)] inside an f-string, for a text cell and for a whole
    number cell. *)
Definition py_str (x : option string) : string :=
  match x with
  | Some s => s
  | None => "None"
  end.

Definition py_int (x : option Z) : string :=
  match x with
  | Some z => NilZero.string_of_int (Z.to_int z)
  | None => "None"
  end.

(** A row of [building_abbreviations.csv], of a table that [read_csv]
    reads as three columns of text without an empty cell.  (A table
    whose codes are all digits is read as integers, and an empty cell
    as a null; [create_events] raises on the first and, in its loop,
    on the second, and they are not rows of this type.) *)
Record BuildingAbbreviation := mkAbbreviation {
  Abbreviation : string;
  Building : string;
  Address : string
}.

(** [with_columns(pl.concat_str("Building", pl.lit(": "), "Address"))]:
    the result takes the name of the first column, [Building]. *)
Definition with_address (a : BuildingAbbreviation) : BuildingAbbreviation :=
  {| Abbreviation := Abbreviation a;
     Building := Building a +:+ ": " +:+ Address a;
     Address := Address a |}.

(** [pl.col("Abbreviation").str.len_chars()]. *)
Definition code_length (a : BuildingAbbreviation) : nat :=
  len_chars (Abbreviation a).

(** The order of [sort(..., descending=True)] on the code lengths. *)
Definition not_longer (a b : BuildingAbbreviation) : Prop :=
  (code_length b ≤ code_length a)%nat.

(** Insertion into a frame sorted by code length, longest first; [a]
    goes before the codes of its own length. *)
Fixpoint insert_by_length (a : BuildingAbbreviation)
    (l : list BuildingAbbreviation) : list BuildingAbbreviation :=
  match l with
  | [] => [a]
  | b :: l' =>
      if bool_decide (code_length a < code_length b)%nat
      then b :: insert_by_length a l'
      else a :: b :: l'
  end.

Definition sort_by_length_desc (l : list BuildingAbbreviation)
    : list BuildingAbbreviation :=
  foldr insert_by_length [] l.

(** The substitution loop of [create_events] over the sorted frame:
    [building = building.replace(Abbreviation, Building)] row by row. *)
Definition substitute (abbreviations : list BuildingAbbreviation)
    (building : string) : string :=
  foldl (λ b a, replace (Abbreviation a) (Building a) b)
        building abbreviations.

(** The fields that [create_events] adds to an icalendar [Event]. *)
Record CalendarEvent := mkCalendarEvent {
  uid : string;
  summary : string;
  description : string;
  location : string;
  dtstart : Z;
  dtend : Z
}.

#[global] Instance CalendarEvent_eq_dec : EqDecision CalendarEvent.
Proof. solve_decision. Defined.

(** The two branches of the description f-string. *)
Definition full_description (k : Key) (proctors : list string)
    (building : string) : string :=
  py_str (Subject k) +:+ " " +:+ py_str (Course k) +:+ "-" +:+
  py_str (Section_ k) +:+ " for " +:+ py_str (Instructor k) +:+ ", " +:+
  py_int (Students_enrolled k) +:+ " students" +:+ nl +:+
  "Proctors: " +:+ join ", " proctors +:+ nl +:+
  "Building: " +:+ building.

Definition makeup_description (proctors : list string) : string :=
  "Make-up exam" +:+ nl +:+ "Proctors: " +:+ join ", " proctors.

Definition describe (k : Key) (proctors : list string)
    (building : string) : string :=
  if decide (Subject k ≠ Some "Make-up Exam")
  then full_description k proctors building
  else makeup_description proctors.

(** ** [main] and [check_for_double_bookings]: frames and effects *)

(** A row of [sched] in [main]: a cleaned row and its [Event] cell. *)
Record Scheduled := mkScheduled {
  sched_key : Key;
  sched_proctors : list (option string);
  Event : CalendarEvent
}.

(** A row of [sched.explode("Proctor")]. *)
Record Appointment := mkAppointment {
  app_key : Key;
  app_proctor : option string;
  app_event : CalendarEvent
}.

#[global] Instance Appointment_eq_dec : EqDecision Appointment.
Proof. solve_decision. Defined.

(** [explode("Proctor")]: one row per element of the list cell; an
    empty list gives one row whose Proctor is null. *)
Definition explode_row (r : Scheduled) : list Appointment :=
  match sched_proctors r with
  | [] => [mkAppointment (sched_key r) None (Event r)]
  | ps => (λ p, mkAppointment (sched_key r) p (Event r)) <$> ps
  end.

Definition explode (sched : list Scheduled) : list Appointment :=
  sched ≫= explode_row.

(** Comparisons of polars cells in a [join_where] predicate: a
    comparison with a null is null and the pair is not kept. *)
Definition cell_lt (a b : option Z) : bool :=
  match a, b with
  | Some x, Some y => bool_decide (x < y)%Z
  | _, _ => false
  end.

Definition cell_eq {A} `{EqDecision A} (a b : option A) : bool :=
  match a, b with
  | Some x, Some y => bool_decide (x = y)
  | _, _ => false
  end.

Definition cell_ne {A} `{EqDecision A} (a b : option A) : bool :=
  match a, b with
  | Some x, Some y => bool_decide (x ≠ y)
  | _, _ => false
  end.

(** The four predicates of the [join_where], the left row first. *)
Definition double_booked (a b : Appointment) : bool :=
  cell_eq (app_proctor a) (app_proctor b)
  && cell_lt (Start_time (app_key a)) (Start_time (app_key b))
  && cell_lt (Start_time (app_key b)) (End_time (app_key a))
  && cell_ne (Location (app_key a)) (Location (app_key b)).

(** What one warning prints: the proctor, the date, and for each of the
    two appointments its course, section, start and end. *)
Record Warning := mkWarning {
  w_proctor : option string;
  w_date : option Z;
  w_course : option string;
  w_section : option string;
  w_start : Z;
  w_end : Z;
  w_course_right : option string;
  w_section_right : option string;
  w_start_right : Z;
  w_end_right : Z
}.

(** The f-string of the warning calls [.time()] on the four datetimes,
    which raises on a null. *)
Definition warning_of (ab : Appointment * Appointment) : option Warning :=
  let a := app_key ab.1 in
  let b := app_key ab.2 in
  s ← Start_time a; e ← End_time a;
  s' ← Start_time b; e' ← End_time b;
  Some (mkWarning (app_proctor ab.1) (Date a) (Course a) (Section_ a) s e
                  (Course b) (Section_ b) s' e').

Inductive Directory := INTERIM_DATA_DIR | PROCESSED_DATA_DIR.

#[global] Instance Directory_eq_dec : EqDecision Directory.
Proof. solve_decision. Defined.

(** What a run does to the outside: the records it logs and the
    calendars it writes, a calendar being the list of its events. *)
Inductive Effect :=
  | LogWarning (w : Warning)
  | WriteCalendar (dir : Directory) (name : string)
                  (cal : list CalendarEvent)
  | LogSuccess (period : string).

(** The calendars that a run has written in a directory, in the order
    of writing. *)
Definition calendars_in (dir : Directory) (effects : list Effect)
    : list (list CalendarEvent) :=
  omap (λ e, match e with
             | WriteCalendar d _ cal =>
                 if decide (d = dir) then Some cal else None
             | _ => None
             end) effects.

Definition is_warning (e : Effect) : bool :=
  match e with
  | LogWarning _ => true
  | _ => false
  end.

(** [pl.col("Date").min()]: nulls are skipped, an empty column has a
    null minimum. *)
Definition min_date (sched : list Scheduled) : option Z :=
  match omap (Date ∘ sched_key) sched with
  | [] => None
  | d :: ds => Some (foldr Z.min d ds)
  end.

(** [data["Event"]] for a group [(proctor, data)] of the exploded frame. *)
Definition group_calendar (g : option string * list Appointment)
    : list CalendarEvent :=
  app_event <$> g.2.

(** The identity order, one of the orders polars may choose. *)
Definition frame_order : ∀ A, list A → list A := λ _ l, l.

(** The names of the files that a run has written in a directory, in
    the order of writing. *)
Definition names_in (dir : Directory) (effects : list Effect)
    : list string :=
  omap (λ e, match e with
             | WriteCalendar d name _ =>
                 if decide (d = dir) then Some name else None
             | _ => None
             end) effects.

(** [old in s]: [old] stands somewhere in [s]. *)
Definition occurs_in (old s : string) : Prop :=
  ∃ before after, s = before +:+ old +:+ after.

(** ** [prompt_for_file]

    The lines typed at the prompt are the input; [int] is Python's
    [int] on a typed line, [None] when it raises ValueError.  What the
    function prints comes first in the result; the file it returns
    comes second, [None] when [input] raises EOFError because nothing
    is left to read. *)

(** The header and the numbered list of the files. *)
Definition menu (files : list string) : list string :=
  "Select a file to convert to ICS:"
  :: imap (λ i file,
             NilZero.string_of_int (Z.to_int (Z.of_nat i + 1)) +:+ ". "
             +:+ file) files.

(** The [while True] loop, one turn per typed line. *)
Fixpoint ask (int : string → option Z) (files : list string)
    (typed : list string) : list string * option string :=
  match typed with
  | [] => (["Enter the number of the file: "], None)
  | line :: typed' =>
      match int line with
      | Some choice =>
          if bool_decide (1 ≤ choice ≤ Z.of_nat (length files))%Z
          then (["Enter the number of the file: "],
                files !! Z.to_nat (choice - 1))
          else
            let r := ask int files typed' in
            ("Enter the number of the file: "
             :: "Invalid number. Try again." :: r.1, r.2)
      | None =>
          let r := ask int files typed' in
          ("Enter the number of the file: "
           :: "Please enter a valid number." :: r.1, r.2)
      end
  end.

Definition prompt_for_file (int : string → option Z) (files : list string)
    (typed : list string) : list string * option string :=
  let r := ask int files typed in (menu files ++ r.1, r.2).

(** A typed line that the loop accepts. *)
Definition valid_choice (int : string → option Z) (files : list string)
    (line : string) : Prop :=
  ∃ choice, int line = Some choice
            ∧ (1 ≤ choice ≤ Z.of_nat (length files))%Z.

(** Decimal digits only, as a stand-in for [int]. *)
Definition sample_int (line : string) : option Z :=
  match line with
  | "1" => Some 1%Z
  | "2" => Some 2%Z
  | "3" => Some 3%Z
  | "7" => Some 7%Z
  | _ => None
  end.

(** ** Sample inputs

    A zone four hours behind UTC at every instant, a uid counter and a
    July 2024 period stand for the zone database, [uuid4] and
    [strftime] in the runs below. *)

Definition sample_zone (t : Z) : option Z := Some (t + 14400000)%Z.

Definition sample_uuid4 (n : nat) : string :=
  "uid-" +:+ NilZero.string_of_int (Z.to_int (Z.of_nat n)).

Definition sample_strftime (d : Z) : string := "2024-07".

Definition sample_csv : list BuildingAbbreviation :=
  [mkAbbreviation "S" "Sx" "1 Main Rd";
   mkAbbreviation "SC" "Science Centre" "2 College Ave"].

(** An exam on 2024-07-01 (day 19905), 10:00 to 11:00, the times
    written with the date of the day. *)
Definition sample_exam : Key :=
  mkKey (Some 19905%Z) (Some 1719828000000%Z) (Some 1719831600000%Z)
        (Some "SC-100") (Some "Math") (Some "1000") (Some "001")
        (Some "Smith") (Some 120%Z).

(** The same exam, the times written with the 1899-12-30 placeholder. *)
Definition sample_exam_1899 : Key :=
  mkKey (Some 19905%Z) (Some (-2209125600000)%Z) (Some (-2209122000000)%Z)
        (Some "SC-100") (Some "Math") (Some "1000") (Some "001")
        (Some "Smith") (Some 120%Z).

(** A sheet with an exam row, a continuation row that leaves the shared
    cells blank, and a blank template row. *)
Definition sample_sheet : list RawRow :=
  [mkRawRow sample_exam [Some "A"; Some "B"];
   mkRawRow null_key [Some "C"; None];
   mkRawRow null_key [None; None]].

(** A sheet whose first row has no Date. *)
Definition row_without_date : RawRow :=
  mkRawRow (mkKey None (Some 1719828000000%Z) (Some 1719831600000%Z)
                  (Some "X-1") None None None None None)
           [Some "A"; Some "B"].

Definition sheet_without_first_date : list RawRow :=
  [row_without_date; mkRawRow sample_exam [Some "C"; None]].

(** A sheet that writes one exam twice, once with each date part. *)
Definition sheet_with_two_date_parts : list RawRow :=
  [mkRawRow sample_exam_1899 [Some "A"; Some "B"];
   mkRawRow sample_exam [Some "A"; Some "C"]].

Definition sample_event : CalendarEvent :=
  mkCalendarEvent "uid-0" "Proctoring" "" "" 0 0.

(** Proctor A in X from 10:00 to 11:00 and in Y from 10:30 to 11:30,
    on the day that starts at the instant 1719806400000. *)
Definition booking_in_X : Scheduled :=
  mkScheduled
    (mkKey (Some 19905%Z) (Some 1719842400000%Z) (Some 1719846000000%Z)
           (Some "X") (Some "Math") (Some "1000") (Some "001")
           (Some "Smith") (Some 120%Z))
    [Some "A"] sample_event.

Definition booking_in_Y : Scheduled :=
  mkScheduled
    (mkKey (Some 19905%Z) (Some 1719844200000%Z) (Some 1719847800000%Z)
           (Some "Y") (Some "Math") (Some "2000") (Some "001")
           (Some "Jones") (Some 80%Z))
    [Some "A"] sample_event.

(** A cleaned frame with an exam and a make-up exam. *)
Definition sample_cleaned : list NormalizedEvent :=
  [mkEvent sample_exam [Some "A"; Some "B"];
   mkEvent (mkKey (Some 19906%Z) (Some 1719914400000%Z)
                  (Some 1719918000000%Z) (Some "SC-100")
                  (Some "Make-up Exam") None None None None)
           [Some "C"]].

(** A file system that opens every name but those with a "/". *)
Fixpoint sample_can_open (name : string) : bool :=
  match name with
  | "" => true
  | String c name' => negb (Ascii.eqb c "/"%char) && sample_can_open name'
  end.

(** A sheet that books proctor A in X from 10:00 to 11:00 and in Y
    from 10:30 to 11:30 on 2024-07-01. *)
Definition sheet_with_double_booking : list RawRow :=
  [mkRawRow (mkKey (Some 19905%Z) (Some 1719828000000%Z)
                   (Some 1719831600000%Z) (Some "X-1") (Some "Math")
                   (Some "1000") (Some "001") (Some "Smith") (Some 120%Z))
            [Some "A"];
   mkRawRow (mkKey (Some 19905%Z) (Some 1719829800000%Z)
                   (Some 1719833400000%Z) (Some "Y-2") (Some "Math")
                   (Some "2000") (Some "001") (Some "Jones") (Some 80%Z))
            [Some "A"]].

(** A sheet with a dated row that names no proctor. *)
Definition sheet_without_proctors : list RawRow :=
  [mkRawRow sample_exam [None; None]].

Section Pipeline.

(** polars does not fix the order of the groups of [group_by], of the
    values of [unique], of the rows of [join_where], nor of rows that
    tie in [sort]: each of them returns its rows in an order
    [unordered] of polars' choosing. *)
Variable unordered : ∀ A, list A → list A.

(** [dt.replace_time_zone("America/Toronto")] on a wall-clock datetime
    in milliseconds: the instant it denotes in that zone, or an
    exception when the wall-clock time is ambiguous or does not exist. *)
Variable replace_time_zone : Z → option Z.

(** [str(uuid4())]: the text returned by the [i]-th call of a run. *)
Variable uuid4 : nat → string.

(** [dt.strftime("%Y-%m")] of a date. *)
Variable strftime_Y_m : Z → string.

(** [open("wb")] on the calendar of a proctor: whether the file system
    opens a file of that name in [PROCESSED_DATA_DIR]; it raises on a
    name that it refuses, such as one in which the Proctor cell has put
    a "/".  The aggregate calendar, whose name holds the period alone,
    is taken to open. *)
Variable can_open : string → bool.

(** [Expr.unique()]. *)
Definition unique {A} `{EqDecision A} (l : list A) : list A :=
  unordered _ (remove_dups l).

(** [group_by(key)]: one group per distinct key (null is a key of its
    own), each group holding its rows in frame order. *)
Definition group_by {K R} `{EqDecision K} (key : R → K) (df : list R)
    : list (K * list R) :=
  unordered _
    ((λ k, (k, filter (λ r, key r = k) df)) <$> remove_dups (key <$> df)).

(** [group_by(~cs.by_name("Proctor")).agg(pl.col("Proctor").unique())]. *)
Definition agg_proctors (df : list LongRow) : list NormalizedEvent :=
  (λ g, mkEvent g.1 (unique (long_proctor <$> g.2))) <$> group_by long_key df.

(** [pl.col("Date").dt.combine(pl.col(t).dt.time(), "ms")
    .dt.replace_time_zone("America/Toronto")]: the date of [Date] with
    the time of day of the time cell; null when either is null. *)
Definition combine (d t : option Z) : option (option Z) :=
  match d, t with
  | Some d, Some t =>
      Some <$> replace_time_zone (d * ms_per_day + t `mod` ms_per_day)%Z
  | _, _ => Some None
  end.

Definition combine_times (k : Key) : option Key :=
  s ← combine (Date k) (Start_time k);
  e ← combine (Date k) (End_time k);
  Some {| Date := Date k; Start_time := s; End_time := e;
          Location := Location k; Subject := Subject k; Course := Course k;
          Section_ := Section_ k; Instructor := Instructor k;
          Students_enrolled := Students_enrolled k |}.

Definition with_combined_times (ev : NormalizedEvent)
    : option NormalizedEvent :=
  k ← combine_times (ev_key ev); Some (mkEvent k (Proctor ev)).

Definition clean_proctor_schedule (sched : list RawRow)
    : option (list NormalizedEvent) :=
  mapM with_combined_times (agg_proctors (long_frame sched)).

(** [pl.col("Start time") - pl.duration(minutes=start_offset_mins)]. *)
Definition subtract_offset (start_offset_mins : Z) (ev : NormalizedEvent)
    : NormalizedEvent :=
  let k := ev_key ev in
  mkEvent
    {| Date := Date k;
       Start_time := (λ t, t - start_offset_mins * 60000)%Z <$> Start_time k;
       End_time := End_time k;
       Location := Location k; Subject := Subject k; Course := Course k;
       Section_ := Section_ k; Instructor := Instructor k;
       Students_enrolled := Students_enrolled k |}
    (Proctor ev).

(** The [abbreviations] frame of [create_events], from the rows of the
    csv file; codes of one length stand in the order polars chooses. *)
Definition read_abbreviations (csv : list BuildingAbbreviation)
    : list BuildingAbbreviation :=
  sort_by_length_desc (unordered _ (with_address <$> csv)).

(** The body of the loop of [create_events] for the [i]-th row.  It
    raises on a null Location ([split]), on a null proctor ([join]) and
    on a null start or end ([event.add] of a date property).  The
    instants are integers; that [iter_rows] also raises on an instant
    outside the years 1 to 9999 of Python's [datetime] is left out, so
    [None] here is an exception of the source, and [Some] its result
    for the instants that [datetime] holds. *)
Definition create_event (abbreviations : list BuildingAbbreviation)
    (i : nat) (row : NormalizedEvent) : option CalendarEvent :=
  let k := ev_key row in
  loc ← Location k;
  let building := substitute abbreviations (before_dash loc) in
  proctors ← mapM id (Proctor row);
  start ← Start_time k;
  end_ ← End_time k;
  Some {| uid := uuid4 i;
          summary := "Proctoring";
          description := describe k proctors building;
          location := loc;
          dtstart := start;
          dtend := end_ |}.

Fixpoint create_events_from (abbreviations : list BuildingAbbreviation)
    (i : nat) (sched : list NormalizedEvent) : option (list CalendarEvent) :=
  match sched with
  | [] => Some []
  | row :: rest =>
      event ← create_event abbreviations i row;
      events ← create_events_from abbreviations (S i) rest;
      Some (event :: events)
  end.

Definition create_events (csv : list BuildingAbbreviation)
    (sched : list NormalizedEvent) : option (list CalendarEvent) :=
  create_events_from (read_abbreviations csv) 0 sched.

(** [df.with_columns(pl.Series("Event", create_events(df), pl.Object))]. *)
Definition with_events (df : list NormalizedEvent)
    (events : list CalendarEvent) : list Scheduled :=
  zip_with (λ r e, mkScheduled (ev_key r) (Proctor r) e) df events.

(** The frame [sched] of [main], lines 23 to 34. *)
Definition build_sched (csv : list BuildingAbbreviation)
    (schedule_file : list RawRow) (start_offset_mins : Z)
    : option (list Scheduled) :=
  cleaned ← clean_proctor_schedule schedule_file;
  let df := subtract_offset start_offset_mins <$> cleaned in
  events ← create_events csv df;
  Some (with_events df events).

(** [appointments.join_where(appointments, ...)]: the pairs of rows,
    left and right, that pass the four predicates. *)
Definition double_bookings (sched : list Scheduled)
    : list (Appointment * Appointment) :=
  let appointments := explode sched in
  unordered _
    (filter (λ ab, double_booked ab.1 ab.2)
            (a ← appointments; b ← appointments; [(a, b)])).

(** One warning is logged per row of the join; nothing is returned. *)
Definition check_for_double_bookings (sched : list Scheduled)
    : option (list Effect) :=
  fmap LogWarning <$> mapM warning_of (double_bookings sched).

Definition schedule_period (sched : list Scheduled) : string :=
  py_str (strftime_Y_m <$> min_date sched).

(** The calendar of all the events, lines 42 to 47. *)
Definition aggregate_calendar (period : string) (sched : list Scheduled)
    : Effect :=
  WriteCalendar INTERIM_DATA_DIR (period +:+ "_proctoring.ics")
                (Event <$> sched).

(** The loop over [sched.explode("Proctor").group_by("Proctor")],
    lines 50 to 58. *)
Definition proctor_calendars (period : string) (sched : list Scheduled)
    : list Effect :=
  (λ g, WriteCalendar PROCESSED_DATA_DIR
          (period +:+ "_" +:+ py_str g.1 +:+ "_proctoring.ics")
          (group_calendar g))
  <$> group_by app_proctor (explode sched).

(** One turn of that loop: the file is opened, then written. *)
Definition open_wb (e : Effect) : option Effect :=
  match e with
  | WriteCalendar PROCESSED_DATA_DIR name _ =>
      if can_open name then Some e else None
  | _ => Some e
  end.

(** The effects of a run that completes; [None] when an exception
    leaves [main], whatever the run had logged or written before it. *)
Definition main (csv : list BuildingAbbreviation)
    (schedule_file : list RawRow) (start_offset_mins : Z)
    : option (list Effect) :=
  sched ← build_sched csv schedule_file start_offset_mins;
  let period := schedule_period sched in
  warnings ← check_for_double_bookings sched;
  written ← mapM open_wb (proctor_calendars period sched);
  Some (warnings ++ [aggregate_calendar period sched]
                 ++ written
                 ++ [LogSuccess period]).

(** Every calendar of the proctors of a schedule can be opened. *)
Definition all_open (period : string) (sched : list Scheduled) : Prop :=
  ∀ name cal,
    WriteCalendar PROCESSED_DATA_DIR name cal
    ∈ proctor_calendars period sched →
    can_open name.

(** The start and the end of a row of the long frame, where [Date] and
    the time cell are filled, exist in the zone. *)
Definition times_exist (k : Key) : Prop :=
  ∀ d t, Date k = Some d →
         Start_time k = Some t ∨ End_time k = Some t →
         is_Some (replace_time_zone (d * ms_per_day + t `mod` ms_per_day)%Z).

(** A row of the long frame with all that an event needs: Date, start,
    end and Location are filled. *)
Definition filled_in (k : Key) : Prop :=
  is_Some (Date k) ∧ is_Some (Start_time k) ∧ is_Some (End_time k)
  ∧ is_Some (Location k).

(** A cleaned row on which the body of the loop of [create_events]
    does not raise. *)
Definition can_build (row : NormalizedEvent) : Prop :=
  is_Some (Location (ev_key row))
  ∧ Forall is_Some (Proctor row)
  ∧ is_Some (Start_time (ev_key row))
  ∧ is_Some (End_time (ev_key row)).

(** ** Properties *)

(** The orders polars chooses keep the rows: none is lost or added. *)
Hypothesis unordered_perm : ∀ A (l : list A), unordered A l ≡ₚ l.

(** *** Forward fill *)

Lemma fill_cell_idem {A} (prev cur : option A) :
  fill_cell prev (fill_cell prev cur) = fill_cell prev cur.
Proof. by destruct cur, prev. Qed.

Lemma fill_row_idem prev r : fill_row prev (fill_row prev r) = fill_row prev r.
Proof.
  destruct prev as [[] ?], r as [[] ?]; unfold fill_row, fill_key; simpl.
  by rewrite !fill_cell_idem.
Qed.

Lemma fill_from_idem prev df :
  fill_from prev (fill_from prev df) = fill_from prev df.
Proof.
  revert prev. induction df as [|r df IH]; intros prev; simpl; [done|].
  rewrite fill_row_idem. f_equal. apply IH.
Qed.

(** C8. The forward fill is idempotent: on every frame, filling an
    already filled frame changes nothing. *)
Theorem fill_null_forward_idempotent (df : list LongRow) :
  fill_null_forward (fill_null_forward df) = fill_null_forward df.
Proof. apply fill_from_idem. Qed.

Lemma cell_fill_key {A} (c : column A) prev cur :
  cell c (fill_key prev cur) = fill_cell (cell c prev) (cell c cur).
Proof. by destruct c. Qed.

Lemma fill_cell_None {A} (prev cur : option A) :
  fill_cell prev cur = None ↔ prev = None ∧ cur = None.
Proof. destruct cur, prev; simpl; intuition congruence. Qed.

Lemma fill_from_lookup {A} (c : column A) prev df n r :
  df !! n = Some r →
  ∃ row, fill_from prev df !! n = Some row
    ∧ (∀ p, long_proctor r = Some p → long_proctor row = Some p)
    ∧ (cell c (long_key row) = None ↔
       cell c (long_key prev) = None
       ∧ ∀ m r', (m ≤ n)%nat → df !! m = Some r' → cell c (long_key r') = None).
Proof.
  revert prev n. induction df as [|r0 df IH]; intros prev n Hn; [done|].
  destruct n as [|n]; simpl in *.
  - simplify_eq. eexists; split; [done|]. split.
    + intros p Hp. simpl. by rewrite Hp.
    + simpl. rewrite cell_fill_key, fill_cell_None. split.
      * intros [? ?]; split; [done|]. intros [|m] r' ? ?; simplify_eq/=; [done|lia].
      * intros [? Hall]; split; [done|]. by apply (Hall 0%nat).
  - destruct (IH (fill_row prev r0) n Hn) as (row & Hrow & Hp & Hc).
    exists row. split; [done|]. split; [done|].
    rewrite Hc. simpl. rewrite cell_fill_key, fill_cell_None. split.
    + intros [[? ?] Hall]. split; [done|]. intros [|m] r' ? ?; simplify_eq/=; [done|].
      apply (Hall m); [lia|done].
    + intros [? Hall]. split; [split; [done|]|].
      * by apply (Hall 0%nat); [lia|].
      * intros m r' ? ?. apply (Hall (S m)); [lia|done].
Qed.

Lemma proctor_cell_lt sched i j r p :
  sched !! i = Some r → proctor_cell j r = Some p →
  (j < proctor_columns sched)%nat.
Proof.
  intros Hi Hp. unfold proctor_cell in Hp.
  destruct (raw_proctors r !! j) as [o|] eqn:Hj; [|done].
  apply lookup_lt_Some in Hj.
  assert (length (raw_proctors r) ≤ proctor_columns sched)%nat; [|lia].
  unfold proctor_columns. apply max_list_elem_of_le.
  apply list_elem_of_fmap. exists r. split; [done|].
  by eapply list_elem_of_lookup_2.
Qed.

Lemma unpivot_split sched j :
  (j < proctor_columns sched)%nat →
  unpivot sched =
    (seq 0 j ≫= λ j', column_frame j' sched) ++ column_frame j sched
    ++ (seq (S j) (proctor_columns sched - S j) ≫= λ j', column_frame j' sched).
Proof.
  intros Hj. unfold unpivot.
  replace (proctor_columns sched) with (j + S (proctor_columns sched - S j))%nat at 1 by lia.
  rewrite seq_app, bind_app. simpl. done.
Qed.

Lemma drop_nulls_copy sched i j r p :
  sched !! i = Some r → proctor_cell j r = Some p →
  drop_nulls (unpivot sched) !! copy_index sched i j
  = Some (mkLongRow (raw_key r) (Some p)).
Proof.
  intros Hi Hp.
  rewrite (unpivot_split sched j) by eauto using proctor_cell_lt.
  assert (column_frame j sched !! i = Some (mkLongRow (raw_key r) (Some p))) as Hc.
  { unfold column_frame. rewrite list_lookup_fmap, Hi. simpl. by rewrite Hp. }
  rewrite <-(take_drop_middle _ _ _ Hc).
  unfold copy_index, drop_nulls.
  rewrite !filter_app, filter_cons_True by (simpl; eauto).
  rewrite <-(assoc_L (++) (filter _ (take _ _))), <-app_comm_cons.
  rewrite (assoc_L (++) (filter _ (_ ≫= _))).
  by apply list_lookup_middle.
Qed.

(** C4, in the form that holds. When the first row of the sheet has a null in a
    column that is not a Proctor column, the copy of that row for a
    Proctor column keeps the null after the forward fill exactly when no
    row standing above that copy in the unpivoted frame (nulls of
    Proctor dropped) has a value in that column; the copy for the first
    Proctor column always keeps it. *)
Theorem first_row_null_kept_iff_nothing_above {A} (c : column A)
    (r : RawRow) (rest : list RawRow) (j : nat) (p : string) :
  cell c (raw_key r) = None →
  proctor_cell j r = Some p →
  ∃ row,
    long_frame (r :: rest) !! copy_index (r :: rest) 0 j = Some row
    ∧ long_proctor row = Some p
    ∧ (cell c (long_key row) = None ↔
       ∀ above,
         above ∈ take (copy_index (r :: rest) 0 j)
                      (drop_nulls (unpivot (r :: rest))) →
         cell c (long_key above) = None)
    ∧ (j = 0%nat → cell c (long_key row) = None).
Proof.
  intros Hc Hp.
  pose proof (drop_nulls_copy (r :: rest) 0 j r p eq_refl Hp) as Hcopy.
  destruct (fill_from_lookup c null_row _ _ _ Hcopy) as (row & Hrow & Hpr & Hnull).
  exists row. split; [done|]. split; [by apply Hpr|].
  assert (cell c (long_key row) = None ↔
          ∀ above,
            above ∈ take (copy_index (r :: rest) 0 j)
                         (drop_nulls (unpivot (r :: rest))) →
            cell c (long_key above) = None) as Hiff.
  { rewrite Hnull. split.
    - intros [_ Hall] above [m Hm]%list_elem_of_lookup.
      apply lookup_take_Some in Hm as [Hm Hlt].
      apply (Hall m); [lia|done].
    - intros Hall. split; [by destruct c|].
      intros m r' Hle Hm.
      destruct (decide (m = copy_index (r :: rest) 0 j)) as [->|Hne].
      + rewrite Hcopy in Hm. by simplify_eq.
      + apply Hall, list_elem_of_lookup. exists m.
        apply lookup_take_Some. split; [done|lia]. }
  split; [done|]. intros ->. apply Hiff.
  by intros above ?%elem_of_nil.
Qed.

(** *** Double bookings *)

Lemma elem_of_unordered {A} (x : A) (l : list A) :
  x ∈ unordered A l ↔ x ∈ l.
Proof. by rewrite unordered_perm. Qed.

Lemma unordered_singleton {A} (x : A) : unordered A [x] = [x].
Proof. apply Permutation_singleton_r. by rewrite unordered_perm. Qed.

Lemma cell_lt_spec (a b : option Z) :
  cell_lt a b ↔ ∃ x y, a = Some x ∧ b = Some y ∧ (x < y)%Z.
Proof.
  destruct a as [x|], b as [y|]; simpl;
    try (split; [done|by intros (? & ? & ? & ? & ?)]).
  rewrite bool_decide_spec. split; [by eauto|].
  intros (? & ? & ? & ? & ?). by simplify_eq.
Qed.

Lemma cell_eq_spec {A} `{EqDecision A} (a b : option A) :
  cell_eq a b ↔ ∃ x, a = Some x ∧ b = Some x.
Proof.
  destruct a as [x|], b as [y|]; simpl;
    try (split; [done|by intros (? & ? & ?)]).
  rewrite bool_decide_spec. split; [intros ->; by eauto|].
  intros (? & ? & ?). by simplify_eq.
Qed.

Lemma cell_ne_spec {A} `{EqDecision A} (a b : option A) :
  cell_ne a b ↔ ∃ x y, a = Some x ∧ b = Some y ∧ x ≠ y.
Proof.
  destruct a as [x|], b as [y|]; simpl;
    try (split; [done|by intros (? & ? & ? & ? & ?)]).
  rewrite bool_decide_spec. split; [by eauto|].
  intros (? & ? & ? & ? & ?). by simplify_eq.
Qed.

Lemma elem_of_double_bookings sched a b :
  (a, b) ∈ double_bookings sched ↔
  a ∈ explode sched ∧ b ∈ explode sched ∧ double_booked a b.
Proof.
  unfold double_bookings. rewrite elem_of_unordered, list_elem_of_filter.
  simpl. rewrite list_elem_of_bind. split.
  - intros (Hdb & a' & (b' & Hab & Hb)%list_elem_of_bind & Ha).
    apply list_elem_of_singleton in Hab. by simplify_eq.
  - intros (Ha & Hb & Hdb). split; [done|]. exists a. split; [|done].
    apply list_elem_of_bind. exists b. split; [|done]. by apply list_elem_of_singleton.
Qed.

Lemma double_booked_spec (a b : Appointment) :
  double_booked a b ↔
  ∃ p sa ea sb la lb,
    app_proctor a = Some p ∧ app_proctor b = Some p
    ∧ Start_time (app_key a) = Some sa ∧ End_time (app_key a) = Some ea
    ∧ Start_time (app_key b) = Some sb
    ∧ Location (app_key a) = Some la ∧ Location (app_key b) = Some lb
    ∧ (sa < sb)%Z ∧ (ea > sb)%Z ∧ la ≠ lb.
Proof.
  unfold double_booked. rewrite !andb_True.
  rewrite cell_eq_spec, !cell_lt_spec, cell_ne_spec. split.
  - intros [[[(p & ? & ?) (sa & sb & ? & ? & ?)] (sb' & ea & ? & ? & ?)]
            (la & lb & ? & ? & ?)].
    simplify_eq. exists p, sa, ea, sb, la, lb. repeat split; try done. lia.
  - intros (p & sa & ea & sb & la & lb & ? & ? & ? & ? & ? & ? & ? & ? & ? & ?).
    repeat split; eauto 10. exists sb, ea. repeat split; try done. lia.
Qed.

Lemma double_bookings_pair (e1 e2 : Scheduled) (p : string) :
  sched_proctors e1 = [Some p] → sched_proctors e2 = [Some p] →
  let a1 := mkAppointment (sched_key e1) (Some p) (Event e1) in
  let a2 := mkAppointment (sched_key e2) (Some p) (Event e2) in
  double_bookings [e1; e2] =
    unordered _ (filter (λ ab, double_booked ab.1 ab.2)
                        [(a1, a1); (a1, a2); (a2, a1); (a2, a2)]).
Proof.
  intros H1 H2. unfold double_bookings, explode, explode_row. simpl.
  by rewrite H1, H2.
Qed.

(** C1. The join reports the pair (A, B) of appointments of the
    schedule exactly when both have the same proctor, A starts before B
    starts, A ends after B starts and their locations differ.  The test
    is one-sided: a pair whose right appointment does not start after
    the left one is not reported.  One proctor booked in X from 10:00 to
    11:00 and in Y from 10:30 to 11:30 gives exactly one warning; two
    appointments at the same location give none. *)
Theorem double_booking_reported_iff :
  (∀ sched A B,
     (A, B) ∈ double_bookings sched ↔
     A ∈ explode sched ∧ B ∈ explode sched
     ∧ ∃ p sa ea sb la lb,
         app_proctor A = Some p ∧ app_proctor B = Some p
         ∧ Start_time (app_key A) = Some sa ∧ End_time (app_key A) = Some ea
         ∧ Start_time (app_key B) = Some sb
         ∧ Location (app_key A) = Some la ∧ Location (app_key B) = Some lb
         ∧ (sa < sb)%Z ∧ (ea > sb)%Z ∧ la ≠ lb)
  ∧ (∀ sched A B sa sb,
       Start_time (app_key A) = Some sa → Start_time (app_key B) = Some sb →
       (sb ≤ sa)%Z → (A, B) ∉ double_bookings sched)
  ∧ (∀ (p X Y : string) (midnight : Z) e1 e2,
       X ≠ Y →
       sched_proctors e1 = [Some p] → sched_proctors e2 = [Some p] →
       Location (sched_key e1) = Some X → Location (sched_key e2) = Some Y →
       Start_time (sched_key e1) = Some (midnight + 36000000)%Z →
       End_time (sched_key e1) = Some (midnight + 39600000)%Z →
       Start_time (sched_key e2) = Some (midnight + 37800000)%Z →
       End_time (sched_key e2) = Some (midnight + 41400000)%Z →
       double_bookings [e1; e2] =
         [(mkAppointment (sched_key e1) (Some p) (Event e1),
           mkAppointment (sched_key e2) (Some p) (Event e2))]
       ∧ ∃ w, check_for_double_bookings [e1; e2] = Some [LogWarning w])
  ∧ (∀ e1 e2,
       Location (sched_key e1) = Location (sched_key e2) →
       check_for_double_bookings [e1; e2] = Some []).
Proof.
  split; [|split; [|split]].
  - intros sched A B. by rewrite elem_of_double_bookings, double_booked_spec.
  - intros sched A B sa sb HA HB Hle.
    rewrite elem_of_double_bookings, double_booked_spec.
    intros (_ & _ & p & sa' & ea & sb' & la & lb & ? & ? & ? & ? & ? & ? & ? & ? & ? & ?).
    simplify_eq. lia.
  - intros p X Y midnight e1 e2 HXY Hp1 Hp2 HX HY Hs1 He1 Hs2 He2.
    assert (double_bookings [e1; e2] =
         [(mkAppointment (sched_key e1) (Some p) (Event e1),
           mkAppointment (sched_key e2) (Some p) (Event e2))]) as Hdb.
    { rewrite (double_bookings_pair e1 e2 p) by done. simpl.
      assert (∀ a b sa sb,
                Start_time (app_key a) = Some sa →
                Start_time (app_key b) = Some sb →
                (sb ≤ sa)%Z → ¬ double_booked a b) as Hno.
      { intros a b sa sb Ha Hb Hle. rewrite double_booked_spec.
        intros (? & ? & ? & ? & ? & ? & ? & ? & ? & ? & ? & ? & ? & ? & ? & ?).
        simplify_eq. lia. }
      rewrite filter_cons_False by (eapply Hno; simpl; eauto; lia).
      rewrite filter_cons_True.
      2:{ simpl. apply double_booked_spec. simpl.
          exists p, (midnight + 36000000)%Z, (midnight + 39600000)%Z,
            (midnight + 37800000)%Z, X, Y. repeat split; try done; lia. }
      rewrite !filter_cons_False by (eapply Hno; simpl; eauto; lia).
      apply unordered_singleton. }
    split; [done|]. unfold check_for_double_bookings. rewrite Hdb. simpl.
    unfold warning_of. simpl. rewrite Hs1, He1, Hs2, He2. simpl. by eexists.
  - intros e1 e2 Hloc. unfold check_for_double_bookings.
    assert (double_bookings [e1; e2] = []) as ->; [|done].
    apply elem_of_nil_inv. intros [A B].
    rewrite elem_of_double_bookings, double_booked_spec.
    intros (HA & HB & p & sa & ea & sb & la & lb & ? & ? & ? & ? & ? & ? & ? & ? & ? & Hne).
    assert (∀ a, a ∈ explode [e1; e2] →
                 Location (app_key a) = Location (sched_key e1)) as Hsame.
    { intros a. unfold explode. simpl. rewrite app_nil_r.
      intros [Ha|Ha]%elem_of_app; unfold explode_row in Ha;
        destruct (sched_proctors _);
        try apply list_elem_of_singleton in Ha;
        try (apply list_elem_of_fmap in Ha as (? & -> & _));
        by subst. }
    apply Hsame in HA, HB. congruence.
Qed.

(** *** Events *)

Lemma create_events_from_lookup abbreviations i sched events :
  create_events_from abbreviations i sched = Some events →
  length events = length sched
  ∧ ∀ n row, sched !! n = Some row →
      ∃ ev, events !! n = Some ev
            ∧ create_event abbreviations (i + n) row = Some ev.
Proof.
  revert i events. induction sched as [|row0 rest IH]; intros i events Hc.
  - simpl in Hc. by simplify_eq.
  - simpl in Hc.
    destruct (create_event abbreviations i row0) as [ev0|] eqn:Hev; [|done].
    destruct (create_events_from abbreviations (S i) rest) as [evs|] eqn:Hevs;
      [|done].
    simpl in Hc. simplify_eq.
    destruct (IH _ _ Hevs) as [Hlen Hall]. split; [simpl; by rewrite Hlen|].
    intros [|n] row Hrow; simpl in *.
    + simplify_eq. exists ev0. by rewrite Nat.add_0_r.
    + destruct (Hall n row Hrow) as (ev & ? & Hev').
      exists ev. split; [done|]. by rewrite <-Nat.add_succ_comm.
Qed.

Lemma create_event_fields abbreviations i row ev :
  create_event abbreviations i row = Some ev →
  ∃ loc proctors start end_,
    Location (ev_key row) = Some loc
    ∧ mapM id (Proctor row) = Some proctors
    ∧ Start_time (ev_key row) = Some start
    ∧ End_time (ev_key row) = Some end_
    ∧ ev = {| uid := uuid4 i; summary := "Proctoring";
              description :=
                describe (ev_key row) proctors
                         (substitute abbreviations (before_dash loc));
              location := loc; dtstart := start; dtend := end_ |}.
Proof.
  unfold create_event. intros Hc.
  destruct (Location (ev_key row)) as [loc|]; [|done].
  destruct (mapM id (Proctor row)) as [proctors|]; [|done].
  destruct (Start_time (ev_key row)) as [start|]; [|done].
  destruct (End_time (ev_key row)) as [end_|]; [|done].
  simpl in Hc. simplify_eq. by exists loc, proctors, start, end_.
Qed.

(** C9. Whenever [create_events] builds the events of a schedule, the
    location field of each event is the Location cell of its row as it
    stands, whatever the abbreviation table. *)
Theorem location_field_is_raw_location csv sched events :
  create_events csv sched = Some events →
  Forall2 (λ row ev, Location (ev_key row) = Some (location ev)) sched events.
Proof.
  intros [Hlen Hall]%create_events_from_lookup.
  apply Forall2_same_length_lookup. split; [done|].
  intros n row ev Hrow Hev.
  destruct (Hall n row Hrow) as (ev' & Hev' & Hc). simplify_eq.
  apply create_event_fields in Hc
    as (loc & proctors & start & end_ & Hloc & _ & _ & _ & ->).
  done.
Qed.

(** C6. In the events built by [create_events], a row whose Subject is
    "Make-up Exam" gets the description "Make-up exam", a line break,
    "Proctors: " and the proctors joined by ", ", in which no other
    cell of the row and no building enters; a row with any other
    Subject gets the full description, with Subject, Course, Section,
    Instructor, enrolment, proctors and building. *)
Theorem description_branches_on_subject csv sched events
    (n : nat) (row : NormalizedEvent) (ev : CalendarEvent) :
  create_events csv sched = Some events →
  sched !! n = Some row →
  events !! n = Some ev →
  ∃ proctors loc,
    mapM id (Proctor row) = Some proctors
    ∧ Location (ev_key row) = Some loc
    ∧ (Subject (ev_key row) = Some "Make-up Exam" →
       description ev =
         "Make-up exam" +:+ nl +:+ "Proctors: " +:+ join ", " proctors)
    ∧ (Subject (ev_key row) ≠ Some "Make-up Exam" →
       description ev =
         py_str (Subject (ev_key row)) +:+ " " +:+
         py_str (Course (ev_key row)) +:+ "-" +:+
         py_str (Section_ (ev_key row)) +:+ " for " +:+
         py_str (Instructor (ev_key row)) +:+ ", " +:+
         py_int (Students_enrolled (ev_key row)) +:+ " students" +:+ nl +:+
         "Proctors: " +:+ join ", " proctors +:+ nl +:+
         "Building: " +:+
         substitute (read_abbreviations csv) (before_dash loc)).
Proof.
  intros [_ Hall]%create_events_from_lookup Hrow Hev.
  destruct (Hall n row Hrow) as (ev' & Hev' & Hc). simplify_eq.
  apply create_event_fields in Hc
    as (loc & proctors & start & end_ & Hloc & Hp & _ & _ & ->).
  exists proctors, loc. split; [done|]. split; [done|].
  simpl. unfold describe. split; intros HS; case_decide; done.
Qed.

(** *** The abbreviation table *)

Lemma insert_by_length_perm a l : insert_by_length a l ≡ₚ a :: l.
Proof.
  induction l as [|b l IH]; simpl; [done|].
  case_bool_decide; [|done]. rewrite IH. apply Permutation_swap.
Qed.

Lemma sort_by_length_desc_perm l : sort_by_length_desc l ≡ₚ l.
Proof.
  induction l as [|a l IH]; simpl; [done|].
  by rewrite insert_by_length_perm, IH.
Qed.

Lemma insert_by_length_sorted a l :
  StronglySorted not_longer l →
  StronglySorted not_longer (insert_by_length a l).
Proof.
  induction 1 as [|b l Hl IH Hb]; simpl.
  - by repeat constructor.
  - case_bool_decide as Hlt.
    + constructor; [done|].
      rewrite insert_by_length_perm. constructor; [unfold not_longer; lia|done].
    + constructor; [by constructor|].
      constructor; [unfold not_longer; lia|].
      eapply Forall_impl; [done|]. unfold not_longer. intros; simpl in *; lia.
Qed.

Lemma sort_by_length_desc_sorted l :
  StronglySorted not_longer (sort_by_length_desc l).
Proof.
  induction l as [|a l IH]; simpl; [constructor|].
  by apply insert_by_length_sorted.
Qed.

Lemma append_empty_r (s : string) : s +:+ "" = s.
Proof.
  induction s as [|c s IH]; [done|].
  change (String c (s +:+ "") = String c s). by f_equal.
Qed.

Lemma read_abbreviations_perm csv :
  read_abbreviations csv ≡ₚ with_address <$> csv.
Proof.
  unfold read_abbreviations. by rewrite sort_by_length_desc_perm, unordered_perm.
Qed.

Lemma read_abbreviations_sorted csv :
  StronglySorted not_longer (read_abbreviations csv).
Proof. apply sort_by_length_desc_sorted. Qed.

Lemma read_abbreviations_S_SC addrS addrSC :
  read_abbreviations
    [mkAbbreviation "S" "Sx" addrS;
     mkAbbreviation "SC" "Science Centre" addrSC]
  = [mkAbbreviation "SC" ("Science Centre: " +:+ addrSC) addrSC;
     mkAbbreviation "S" ("Sx: " +:+ addrS) addrS].
Proof.
  unfold read_abbreviations.
  pose proof (unordered_perm _
    (with_address <$> [mkAbbreviation "S" "Sx" addrS;
                       mkAbbreviation "SC" "Science Centre" addrSC])) as Hp.
  symmetry in Hp. apply Permutation_length_2_inv in Hp as [-> | ->]; done.
Qed.

Lemma substitute_app tried later s :
  substitute (tried ++ later) s = substitute later (substitute tried s).
Proof. unfold substitute. apply foldl_app. Qed.

(** C3, in the form that holds. The loop tries the codes of the table
    in order of length, longest first: when it comes to a code, every
    code tried before is at least as long and every code still to be
    tried is no longer, and what the loop returns is what the later
    codes make of the replacement of that code in what the earlier
    codes have made of the building; so a short code never goes before
    a longer code that contains it.  With the codes S for "Sx" and SC
    for "Science Centre" and the Location "SC-100", the names carry
    ": " and the address, the text substituted is the building "SC"
    before the dash, the loop tries SC first and turns the building
    into "Science Centre: " and the address of SC, on which S is tried
    next, and the result is neither "Sxc-100" nor "SxC-100". *)
Theorem longest_code_tried_first :
  (∀ csv, read_abbreviations csv ≡ₚ with_address <$> csv)
  ∧ (∀ csv tried a later building,
       read_abbreviations csv = tried ++ a :: later →
       substitute (read_abbreviations csv) building
       = substitute later
           (replace (Abbreviation a) (Building a)
                    (substitute tried building))
       ∧ (∀ b, b ∈ tried → (code_length a ≤ code_length b)%nat)
       ∧ (∀ b, b ∈ later → (code_length b ≤ code_length a)%nat))
  ∧ (∀ addrS addrSC,
       let csv := [mkAbbreviation "S" "Sx" addrS;
                   mkAbbreviation "SC" "Science Centre" addrSC] in
       read_abbreviations csv
       = [mkAbbreviation "SC" ("Science Centre: " +:+ addrSC) addrSC;
          mkAbbreviation "S" ("Sx: " +:+ addrS) addrS]
       ∧ before_dash "SC-100" = "SC"
       ∧ substitute (read_abbreviations csv) (before_dash "SC-100")
         = substitute [mkAbbreviation "S" ("Sx: " +:+ addrS) addrS]
                      ("Science Centre: " +:+ addrSC)
       ∧ substitute (read_abbreviations csv) (before_dash "SC-100") ≠ "Sxc-100"
       ∧ substitute (read_abbreviations csv) (before_dash "SC-100") ≠ "SxC-100").
Proof.
  split; [apply read_abbreviations_perm|]. split.
  - intros csv tried a later building Hsplit.
    pose proof (read_abbreviations_sorted csv) as Hs. rewrite Hsplit in Hs.
    split; [|split].
    + by rewrite Hsplit, substitute_app.
    + intros b Hb.
      apply (StronglySorted_app_1_elem_of _ _ _ b a Hs Hb). by left.
    + intros b Hb.
      apply StronglySorted_app_1_r, StronglySorted_cons in Hs as [Hall _].
      by apply (proj1 (Forall_forall _ _) Hall b).
  - intros addrS addrSC csv. subst csv. rewrite read_abbreviations_S_SC.
    split; [done|]. split; [done|]. split; [|split].
    + change (substitute
                [mkAbbreviation "S" ("Sx: " +:+ addrS) addrS]
                (("Science Centre: " +:+ addrSC) +:+ "")
              = substitute
                  [mkAbbreviation "S" ("Sx: " +:+ addrS) addrS]
                  ("Science Centre: " +:+ addrSC)).
      by rewrite append_empty_r.
    + intros H. cbv in H. discriminate H.
    + intros H. cbv in H. discriminate H.
Qed.

(** *** Groups *)

Lemma sum_list_fmap_add {A} (f g : A → nat) (l : list A) :
  sum_list ((λ x, f x + g x)%nat <$> l)
  = (sum_list (f <$> l) + sum_list (g <$> l))%nat.
Proof. induction l as [|x l IH]; csimpl; [done|]. rewrite IH. lia. Qed.

Lemma sum_list_indicator {K} `{EqDecision K} (k0 : K) (ks : list K) :
  NoDup ks → k0 ∈ ks →
  sum_list ((λ k, if decide (k0 = k) then 1 else 0)%nat <$> ks) = 1%nat.
Proof.
  induction 1 as [|k ks Hk Hks IH]; intros Hin; [by apply elem_of_nil in Hin|].
  csimpl. case_decide as Heq.
  - subst k. rewrite (sum_list_fmap_same 0); [lia|].
    apply Forall_forall. intros k' Hk'. case_decide; [by subst|done].
  - apply elem_of_cons in Hin as [?|Hin]; [done|]. by rewrite IH.
Qed.

Lemma sum_list_group_sizes {K R} `{EqDecision K} (key : R → K)
    (ks : list K) (df : list R) :
  NoDup ks → (∀ r, r ∈ df → key r ∈ ks) →
  sum_list ((λ k, length (filter (λ r, key r = k) df)) <$> ks) = length df.
Proof.
  intros Hks. induction df as [|r df IH]; intros Hin.
  - rewrite (sum_list_fmap_same 0); [simpl; lia|by apply Forall_forall].
  - transitivity (1 + length df)%nat; [|done].
    rewrite <-IH by (intros; apply Hin; by right).
    rewrite <-(sum_list_indicator (key r) ks) by (try apply Hin; by try left).
    rewrite <-sum_list_fmap_add. f_equal. apply list_fmap_ext.
    intros _ k _. rewrite filter_cons. by repeat case_decide.
Qed.

Lemma elem_of_group_by {K R} `{EqDecision K} (key : R → K) df k rows :
  (k, rows) ∈ group_by key df ↔
  k ∈ key <$> df ∧ rows = filter (λ r, key r = k) df.
Proof.
  unfold group_by. rewrite elem_of_unordered, list_elem_of_fmap. split.
  - intros (k' & ? & Hk'). rewrite elem_of_remove_dups in Hk'. by simplify_eq.
  - intros [Hk ->]. exists k. by rewrite elem_of_remove_dups.
Qed.

Lemma group_by_keys {K R} `{EqDecision K} (key : R → K) df :
  (group_by key df).*1 ≡ₚ remove_dups (key <$> df).
Proof.
  unfold group_by. rewrite unordered_perm, <-list_fmap_compose.
  by rewrite list_fmap_id.
Qed.

Lemma group_by_keys_NoDup {K R} `{EqDecision K} (key : R → K) df :
  NoDup (group_by key df).*1.
Proof. rewrite group_by_keys. apply NoDup_remove_dups. Qed.

Lemma group_by_sizes {K R} `{EqDecision K} (key : R → K) df :
  sum_list (length ∘ snd <$> group_by key df) = length df.
Proof.
  unfold group_by. rewrite unordered_perm.
  rewrite <-list_fmap_compose.
  apply (sum_list_group_sizes key); [apply NoDup_remove_dups|].
  intros r Hr. apply elem_of_remove_dups, list_elem_of_fmap. by exists r.
Qed.

Lemma group_by_lookup_unique {K R} `{EqDecision K} (key : R → K) df n n' g g' :
  group_by key df !! n = Some g → group_by key df !! n' = Some g' →
  g.1 = g'.1 → n = n'.
Proof.
  intros Hn Hn' Heq.
  apply (NoDup_lookup _ n n' g.1 (group_by_keys_NoDup key df));
    rewrite list_lookup_fmap; [by rewrite Hn|by rewrite Hn', Heq].
Qed.

(** *** The cleaned frame *)

Lemma fill_from_lookup_Some {A} (c : column A) prev df n r v :
  df !! n = Some r → cell c (long_key r) = Some v →
  ∃ row, fill_from prev df !! n = Some row ∧ cell c (long_key row) = Some v.
Proof.
  revert prev n. induction df as [|r0 df IH]; intros prev n Hn Hv; [done|].
  destruct n as [|n]; simpl in *.
  - simplify_eq. eexists; split; [done|]. simpl.
    by rewrite cell_fill_key, Hv.
  - by apply IH.
Qed.

Lemma length_fill_from prev df : length (fill_from prev df) = length df.
Proof.
  revert prev. induction df as [|r df IH]; intros prev; simpl; [done|].
  by rewrite IH.
Qed.

Lemma long_frame_proctor sched row :
  row ∈ long_frame sched → is_Some (long_proctor row).
Proof.
  intros [n Hn]%list_elem_of_lookup. unfold long_frame, fill_null_forward in Hn.
  destruct (drop_nulls (unpivot sched) !! n) as [r|] eqn:Hr.
  - assert (is_Some (long_proctor r)) as [p Hp].
    { apply list_elem_of_lookup_2 in Hr.
      by apply list_elem_of_filter in Hr as [? _]. }
    destruct (fill_from_lookup cDate null_row _ _ _ Hr) as (row' & Hrow' & Hpr & _).
    rewrite Hn in Hrow'. simplify_eq. rewrite (Hpr p Hp). by eexists.
  - apply lookup_ge_None in Hr. apply lookup_lt_Some in Hn.
    rewrite length_fill_from in Hn. lia.
Qed.

Lemma agg_proctors_lookup df n g :
  agg_proctors df !! n = Some g ↔
  ∃ k rows, group_by long_key df !! n = Some (k, rows)
            ∧ g = mkEvent k (unique (long_proctor <$> rows)).
Proof.
  unfold agg_proctors. rewrite list_lookup_fmap. split.
  - destruct (group_by long_key df !! n) as [[k rows]|]; [|done].
    simpl. intros ?. simplify_eq. by exists k, rows.
  - intros (k & rows & -> & ->). done.
Qed.

Lemma agg_proctors_key_unique df n n' g g' :
  agg_proctors df !! n = Some g → agg_proctors df !! n' = Some g' →
  ev_key g = ev_key g' → n = n'.
Proof.
  intros (k & rows & Hn & ->)%agg_proctors_lookup
         (k' & rows' & Hn' & ->)%agg_proctors_lookup Heq.
  by apply (group_by_lookup_unique long_key df n n' _ _ Hn Hn').
Qed.

Lemma agg_proctors_of_row df row :
  row ∈ df →
  ∃ n g, agg_proctors df !! n = Some g
         ∧ ev_key g = long_key row ∧ long_proctor row ∈ Proctor g.
Proof.
  intros Hrow.
  assert ((long_key row, filter (λ r, long_key r = long_key row) df)
          ∈ group_by long_key df) as [n Hn]%list_elem_of_lookup.
  { apply elem_of_group_by. split; [|done].
    apply list_elem_of_fmap. by exists row. }
  exists n, (mkEvent (long_key row)
               (unique (long_proctor <$>
                        filter (λ r, long_key r = long_key row) df))).
  split; [apply agg_proctors_lookup; by eauto|]. split; [done|].
  simpl. unfold unique. rewrite elem_of_unordered, elem_of_remove_dups.
  apply list_elem_of_fmap. exists row. split; [done|].
  by apply list_elem_of_filter.
Qed.

Lemma agg_proctors_elem df g :
  g ∈ agg_proctors df →
  NoDup (Proctor g)
  ∧ Proctor g ≠ []
  ∧ ∀ p, p ∈ Proctor g ↔ mkLongRow (ev_key g) p ∈ df.
Proof.
  intros [n (k & rows & Hn & ->)%agg_proctors_lookup]%list_elem_of_lookup.
  apply list_elem_of_lookup_2, elem_of_group_by in Hn as [Hk ->].
  simpl. unfold unique.
  assert (∀ p, p ∈ unordered _ (remove_dups
                 (long_proctor <$> filter (λ r, long_key r = k) df))
               ↔ mkLongRow k p ∈ df) as Hiff.
  { intros p. rewrite elem_of_unordered, elem_of_remove_dups, list_elem_of_fmap.
    split.
    - intros ([k' p'] & -> & [Hk' ?]%list_elem_of_filter). simpl in *. by subst.
    - intros Hp. exists (mkLongRow k p). split; [done|].
      by apply list_elem_of_filter. }
  split; [|split; [|done]].
  - rewrite unordered_perm. apply NoDup_remove_dups.
  - apply list_elem_of_fmap in Hk as ([k' p] & -> & Hr). simpl.
    intros Hnil. apply (elem_of_nil p). rewrite <-Hnil. by apply Hiff.
Qed.

Lemma with_combined_times_Some g ev :
  with_combined_times g = Some ev →
  combine_times (ev_key g) = Some (ev_key ev) ∧ Proctor ev = Proctor g.
Proof.
  unfold with_combined_times. destruct (combine_times (ev_key g)); [|done].
  simpl. intros ?. by simplify_eq.
Qed.

Lemma clean_proctor_schedule_lookup sched evs :
  clean_proctor_schedule sched = Some evs →
  length evs = length (agg_proctors (long_frame sched))
  ∧ (∀ n g, agg_proctors (long_frame sched) !! n = Some g →
       ∃ ev, evs !! n = Some ev
             ∧ combine_times (ev_key g) = Some (ev_key ev)
             ∧ Proctor ev = Proctor g)
  ∧ (∀ n ev, evs !! n = Some ev →
       ∃ g, agg_proctors (long_frame sched) !! n = Some g
            ∧ combine_times (ev_key g) = Some (ev_key ev)
            ∧ Proctor ev = Proctor g).
Proof.
  unfold clean_proctor_schedule. intros Hm%mapM_Some.
  split; [symmetry; by eapply Forall2_length|]. split.
  - intros n g Hg.
    destruct (Forall2_lookup_l _ _ _ _ _ Hm Hg) as (ev & Hev & Hc).
    exists ev. split; [done|]. by apply with_combined_times_Some.
  - intros n ev Hev.
    destruct (Forall2_lookup_r _ _ _ _ _ Hm Hev) as (g & Hg & Hc).
    exists g. split; [done|]. by apply with_combined_times_Some.
Qed.

Lemma proctor_cell_all_null r j :
  Forall (λ c, c = None) (raw_proctors r) → proctor_cell j r = None.
Proof.
  intros Hall. unfold proctor_cell.
  destruct (raw_proctors r !! j) as [c|] eqn:Hj; [|done].
  apply list_elem_of_lookup_2 in Hj.
  by rewrite (proj1 (Forall_forall _ _) Hall c Hj).
Qed.

Lemma proctor_cell_beyond sched r j :
  r ∈ sched → (proctor_columns sched ≤ j)%nat → proctor_cell j r = None.
Proof.
  intros Hr Hj. unfold proctor_cell.
  rewrite (proj2 (lookup_ge_None _ _)); [done|].
  assert (length (raw_proctors r) ≤ proctor_columns sched)%nat; [|lia].
  apply max_list_elem_of_le, list_elem_of_fmap. by exists r.
Qed.

Lemma drop_nulls_columns js sched :
  drop_nulls (js ≫= λ j, column_frame j sched)
  = js ≫= λ j, drop_nulls (column_frame j sched).
Proof.
  induction js as [|j js IH]; [done|]. csimpl.
  unfold drop_nulls in *. by rewrite filter_app, IH.
Qed.

Lemma drop_nulls_unpivot_wider sched n :
  (proctor_columns sched ≤ n)%nat →
  drop_nulls (seq 0 n ≫= λ j, column_frame j sched) = drop_nulls (unpivot sched).
Proof.
  intros Hn. unfold unpivot.
  replace n with (proctor_columns sched + (n - proctor_columns sched))%nat
    at 1 by lia.
  rewrite seq_app, bind_app. unfold drop_nulls at 1. rewrite filter_app.
  fold (drop_nulls (seq 0 (proctor_columns sched) ≫= λ j, column_frame j sched)).
  rewrite <-(app_nil_r (drop_nulls _)) at 2. f_equal.
  apply elem_of_nil_inv. intros row [Hp Hrow]%list_elem_of_filter.
  apply list_elem_of_bind in Hrow as (j & Hrow & Hj).
  apply elem_of_seq in Hj.
  apply list_elem_of_fmap in Hrow as (r & -> & Hr). simpl in Hp.
  rewrite (proctor_cell_beyond sched r j) in Hp by (done || lia).
  by destruct Hp.
Qed.

Lemma drop_nulls_column_frame_null_row j before r after :
  Forall (λ c, c = None) (raw_proctors r) →
  drop_nulls (column_frame j (before ++ r :: after))
  = drop_nulls (column_frame j (before ++ after)).
Proof.
  intros Hall. unfold drop_nulls, column_frame.
  rewrite !fmap_app, fmap_cons, !filter_app. f_equal.
  rewrite filter_cons_False; [done|]. simpl.
  rewrite proctor_cell_all_null by done. by intros [].
Qed.

Lemma drop_nulls_unpivot_null_row before r after :
  Forall (λ c, c = None) (raw_proctors r) →
  drop_nulls (unpivot (before ++ r :: after))
  = drop_nulls (unpivot (before ++ after)).
Proof.
  intros Hall.
  set (n := (proctor_columns (before ++ r :: after)
             `max` proctor_columns (before ++ after))%nat).
  rewrite <-(drop_nulls_unpivot_wider (before ++ r :: after) n) by lia.
  rewrite <-(drop_nulls_unpivot_wider (before ++ after) n) by lia.
  rewrite !drop_nulls_columns. apply list_bind_ext; [|done].
  intros j. by apply drop_nulls_column_frame_null_row.
Qed.

(** C2, in the form that holds. Whenever the cleaning succeeds: every non-null
    Proctor value of every row of the sheet is in the proctor list of
    the NormalizedEvent made from exactly one group of the group_by,
    the group whose key is the cells of that copy of the row after the
    forward fill (the row's own cells where they are not null) and
    before Date and time are combined; the proctor list of each
    NormalizedEvent has no duplicate; and a row whose Proctor cells are
    all null is dropped, the cleaned frame being the same without it. *)
Theorem every_proctor_in_one_group sched evs :
  clean_proctor_schedule sched = Some evs →
  (∀ i r j p,
     sched !! i = Some r → proctor_cell j r = Some p →
     ∃ row n ev,
       long_frame sched !! copy_index sched i j = Some row
       ∧ long_proctor row = Some p
       ∧ (∀ A (c : column A) v,
            cell c (raw_key r) = Some v → cell c (long_key row) = Some v)
       ∧ evs !! n = Some ev
       ∧ Some p ∈ Proctor ev
       ∧ combine_times (long_key row) = Some (ev_key ev)
       ∧ ∀ n' g', agg_proctors (long_frame sched) !! n' = Some g' →
                  ev_key g' = long_key row → n' = n)
  ∧ (∀ ev, ev ∈ evs → NoDup (Proctor ev))
  ∧ (∀ before r after,
       sched = before ++ r :: after →
       Forall (λ c, c = None) (raw_proctors r) →
       clean_proctor_schedule (before ++ after) = Some evs).
Proof.
  intros Hclean.
  destruct (clean_proctor_schedule_lookup _ _ Hclean) as (Hlen & Hfwd & Hbwd).
  split; [|split].
  - intros i r j p Hi Hp.
    pose proof (drop_nulls_copy sched i j r p Hi Hp) as Hcopy.
    destruct (fill_from_lookup cDate null_row _ _ _ Hcopy)
      as (row & Hrow & Hpr & _).
    specialize (Hpr p eq_refl).
    destruct (agg_proctors_of_row (long_frame sched) row)
      as (n & g & Hg & Hkey & Hin); [by eapply list_elem_of_lookup_2|].
    destruct (Hfwd n g Hg) as (ev & Hev & Hcomb & Hproctor).
    exists row, n, ev. repeat split; try done.
    + intros A c v Hv.
      destruct (fill_from_lookup_Some c null_row _ _ _ v Hcopy Hv)
        as (row' & Hrow' & Hv').
      unfold long_frame, fill_null_forward in Hrow.
      rewrite Hrow in Hrow'. by simplify_eq.
    + by rewrite Hproctor, <-Hpr.
    + by rewrite <-Hkey.
    + intros n' g' Hg' Hkey'.
      apply (agg_proctors_key_unique _ _ _ _ _ Hg' Hg). congruence.
  - intros ev [n Hev]%list_elem_of_lookup.
    destruct (Hbwd n ev Hev) as (g & Hg & _ & ->).
    by apply (agg_proctors_elem (long_frame sched)), list_elem_of_lookup_2 with n.
  - intros before r after -> Hall. rewrite <-Hclean.
    unfold clean_proctor_schedule, long_frame.
    by rewrite drop_nulls_unpivot_null_row.
Qed.

(** *** The run *)

Lemma build_sched_Some csv schedule_file start_offset_mins sched :
  build_sched csv schedule_file start_offset_mins = Some sched →
  ∃ cleaned events,
    clean_proctor_schedule schedule_file = Some cleaned
    ∧ create_events csv (subtract_offset start_offset_mins <$> cleaned)
      = Some events
    ∧ sched = with_events (subtract_offset start_offset_mins <$> cleaned) events.
Proof.
  unfold build_sched. intros Hb.
  destruct (clean_proctor_schedule schedule_file) as [cleaned|]; [|done].
  simpl in Hb.
  destruct (create_events csv _) as [events|] eqn:He; [|done].
  simpl in Hb. simplify_eq. by exists cleaned, events.
Qed.

Lemma with_events_lookup df events n s :
  with_events df events !! n = Some s ↔
  ∃ row ev, df !! n = Some row ∧ events !! n = Some ev
            ∧ s = mkScheduled (ev_key row) (Proctor row) ev.
Proof.
  unfold with_events. rewrite lookup_zip_with_Some. split.
  - intros (row & ev & -> & ? & ?). by exists row, ev.
  - intros (row & ev & ? & ? & ->). by exists row, ev.
Qed.

(** A schedule whose events could be built has its times filled in. *)
Lemma build_sched_times csv schedule_file start_offset_mins sched s :
  build_sched csv schedule_file start_offset_mins = Some sched →
  s ∈ sched →
  is_Some (Start_time (sched_key s)) ∧ is_Some (End_time (sched_key s))
  ∧ Location (sched_key s) = Some (location (Event s)).
Proof.
  intros (cleaned & events & _ & [_ Hall]%create_events_from_lookup & ->)
         %build_sched_Some [n Hs]%list_elem_of_lookup.
  apply with_events_lookup in Hs as (row & ev & Hrow & Hev & ->).
  destruct (Hall n row Hrow) as (ev' & Hev' & Hc). simplify_eq.
  apply create_event_fields in Hc
    as (loc & proctors & start & end_ & Hloc & _ & Hs & He & ->).
  simpl. rewrite Hs, He. by eauto.
Qed.

Lemma elem_of_explode sched a :
  a ∈ explode sched →
  ∃ s, s ∈ sched ∧ app_key a = sched_key s ∧ app_event a = Event s.
Proof.
  unfold explode. intros (s & Ha & Hs)%list_elem_of_bind. exists s.
  split; [done|]. unfold explode_row in Ha.
  destruct (sched_proctors s).
  - apply list_elem_of_singleton in Ha. by subst.
  - apply list_elem_of_fmap in Ha as (? & -> & _). done.
Qed.

Lemma check_for_double_bookings_Some csv schedule_file start_offset_mins sched :
  build_sched csv schedule_file start_offset_mins = Some sched →
  ∃ ws, mapM warning_of (double_bookings sched) = Some ws
        ∧ length ws = length (double_bookings sched)
        ∧ check_for_double_bookings sched = Some (LogWarning <$> ws).
Proof.
  intros Hb.
  assert (is_Some (mapM warning_of (double_bookings sched))) as [ws Hws].
  { apply mapM_is_Some, Forall_forall. intros [a b] Hab.
    apply elem_of_double_bookings in Hab as (Ha & Hb' & _).
    apply elem_of_explode in Ha as (sa & Hsa & Hka & _).
    apply elem_of_explode in Hb' as (sb & Hsb & Hkb & _).
    destruct (build_sched_times _ _ _ _ _ Hb Hsa) as ([? Hs1] & [? He1] & _).
    destruct (build_sched_times _ _ _ _ _ Hb Hsb) as ([? Hs2] & [? He2] & _).
    unfold compose, warning_of. simpl.
    rewrite Hka, Hkb, Hs1, He1, Hs2, He2. by eexists. }
  exists ws. split; [done|]. split.
  - symmetry. by eapply length_mapM.
  - unfold check_for_double_bookings. by rewrite Hws.
Qed.

Lemma calendars_in_warnings dir (ws : list Warning) :
  calendars_in dir (LogWarning <$> ws) = [].
Proof. induction ws as [|w ws IH]; [done|]. by csimpl. Qed.

Lemma calendars_in_app dir e1 e2 :
  calendars_in dir (e1 ++ e2) = calendars_in dir e1 ++ calendars_in dir e2.
Proof. apply omap_app. Qed.

Lemma calendars_in_proctor_calendars period sched :
  calendars_in INTERIM_DATA_DIR (proctor_calendars period sched) = []
  ∧ calendars_in PROCESSED_DATA_DIR (proctor_calendars period sched)
    = group_calendar <$> group_by app_proctor (explode sched).
Proof.
  unfold proctor_calendars.
  induction (group_by app_proctor (explode sched)) as [|g gs [IH1 IH2]];
    [done|].
  csimpl. split; [done|]. by rewrite IH2.
Qed.

Lemma open_wb_Some e e' : open_wb e = Some e' → e' = e.
Proof.
  unfold open_wb. destruct e as [|[] name cal|]; try by intros [= <-].
  destruct (can_open name); [by intros [= <-]|done].
Qed.

Lemma mapM_open_wb_Some l written :
  mapM open_wb l = Some written ↔
  written = l ∧ Forall (λ e, is_Some (open_wb e)) l.
Proof.
  rewrite mapM_Some. split.
  - intros H. induction H as [|e e' l l' He _ [-> IH]]; [by split|].
    apply open_wb_Some in He as Heq. subst e'. split; [done|].
    constructor; [by eexists|done].
  - intros [-> H]. induction H as [|e l [e' He] _ IH]; [constructor|].
    constructor; [|done]. by rewrite He, (open_wb_Some _ _ He).
Qed.

Lemma open_proctor_calendars period sched :
  Forall (λ e, is_Some (open_wb e)) (proctor_calendars period sched) ↔
  all_open period sched.
Proof.
  unfold all_open. rewrite Forall_forall. split.
  - intros Hall name cal Hin. specialize (Hall _ Hin). simpl in Hall.
    destruct (can_open name); [done|by destruct Hall].
  - intros Hall e He. pose proof He as He'. unfold proctor_calendars in He.
    apply list_elem_of_fmap in He as (g & -> & _). simpl.
    specialize (Hall _ _ He'). by destruct (can_open _).
Qed.

Lemma main_Some csv schedule_file start_offset_mins effects :
  main csv schedule_file start_offset_mins = Some effects →
  ∃ sched ws,
    build_sched csv schedule_file start_offset_mins = Some sched
    ∧ mapM warning_of (double_bookings sched) = Some ws
    ∧ effects =
        (LogWarning <$> ws)
        ++ [aggregate_calendar (schedule_period sched) sched]
        ++ proctor_calendars (schedule_period sched) sched
        ++ [LogSuccess (schedule_period sched)].
Proof.
  unfold main. intros Hm.
  destruct (build_sched csv schedule_file start_offset_mins) as [sched|] eqn:Hb;
    [|done].
  destruct (check_for_double_bookings_Some _ _ _ _ Hb) as (ws & Hws & _ & Hc).
  simpl in Hm. rewrite Hc in Hm. simpl in Hm.
  destruct (mapM open_wb _) as [written|] eqn:Hw; [|done].
  apply mapM_open_wb_Some in Hw as [-> _].
  simpl in Hm. simplify_eq. by exists sched, ws.
Qed.

Lemma main_of_sched csv schedule_file start_offset_mins sched :
  build_sched csv schedule_file start_offset_mins = Some sched →
  ∃ ws,
    check_for_double_bookings sched = Some (LogWarning <$> ws)
    ∧ length ws = length (double_bookings sched)
    ∧ (all_open (schedule_period sched) sched →
       main csv schedule_file start_offset_mins =
         Some ((LogWarning <$> ws)
               ++ [aggregate_calendar (schedule_period sched) sched]
               ++ proctor_calendars (schedule_period sched) sched
               ++ [LogSuccess (schedule_period sched)]))
    ∧ (¬ all_open (schedule_period sched) sched →
       main csv schedule_file start_offset_mins = None).
Proof.
  intros Hb.
  destruct (check_for_double_bookings_Some _ _ _ _ Hb) as (ws & _ & Hlen & Hc).
  exists ws. split; [done|]. split; [done|].
  unfold main. rewrite Hb. simpl. rewrite Hc. simpl. split.
  - intros Hopen.
    assert (mapM open_wb (proctor_calendars (schedule_period sched) sched)
            = Some (proctor_calendars (schedule_period sched) sched)) as ->;
      [|done].
    apply mapM_open_wb_Some. split; [done|]. by apply open_proctor_calendars.
  - intros Hno.
    destruct (mapM open_wb _) as [written|] eqn:Hw; [|done].
    apply mapM_open_wb_Some in Hw as [_ Hw].
    by apply open_proctor_calendars in Hw.
Qed.

(** C5. A double booking is never what makes a run fail.  A run fails
    only where building the schedule fails or where the file of a
    proctor's calendar cannot be opened.  Once the schedule is built,
    the check for double bookings does not raise and only logs one
    warning per double booking; and when the files open, the run
    completes, and what it writes, the aggregate calendar and one
    calendar per proctor, is given by the schedule alone, whether or
    not there were warnings. *)
Theorem double_bookings_never_fatal csv schedule_file start_offset_mins :
  (main csv schedule_file start_offset_mins = None ↔
   build_sched csv schedule_file start_offset_mins = None
   ∨ ∃ sched,
       build_sched csv schedule_file start_offset_mins = Some sched
       ∧ ¬ all_open (schedule_period sched) sched)
  ∧ ∀ sched,
      build_sched csv schedule_file start_offset_mins = Some sched →
      ∃ ws,
        check_for_double_bookings sched = Some (LogWarning <$> ws)
        ∧ length ws = length (double_bookings sched)
        ∧ (all_open (schedule_period sched) sched →
           ∃ effects,
             main csv schedule_file start_offset_mins = Some effects
             ∧ filter (λ e, is_warning e) effects = LogWarning <$> ws
             ∧ filter (λ e, ¬ is_warning e) effects =
                 aggregate_calendar (schedule_period sched) sched
                 :: proctor_calendars (schedule_period sched) sched
                 ++ [LogSuccess (schedule_period sched)]
             ∧ calendars_in INTERIM_DATA_DIR effects = [Event <$> sched]
             ∧ calendars_in PROCESSED_DATA_DIR effects =
                 group_calendar <$> group_by app_proctor (explode sched)).
Proof.
  split.
  - split.
    + intros Hm.
      destruct (build_sched csv schedule_file start_offset_mins) as [sched|] eqn:Hb;
        [|by left].
      right. exists sched. split; [done|]. intros Hopen.
      destruct (main_of_sched _ _ _ _ Hb) as (ws & _ & _ & Hmain & _).
      rewrite (Hmain Hopen) in Hm. done.
    + intros [Hb|(sched & Hb & Hno)].
      * unfold main. by rewrite Hb.
      * destruct (main_of_sched _ _ _ _ Hb) as (ws & _ & _ & _ & Hmain).
        by apply Hmain.
  - intros sched Hb.
    destruct (main_of_sched _ _ _ _ Hb) as (ws & Hc & Hlen & Hmain & _).
    exists ws. split; [done|]. split; [done|]. intros Hopen.
    eexists. split; [by apply Hmain|].
    assert (∀ l : list Warning,
              filter (λ e, is_warning e) (LogWarning <$> l) = LogWarning <$> l
              ∧ filter (λ e, ¬ is_warning e) (LogWarning <$> l) = []) as Hw.
    { induction l as [|w l [IH1 IH2]]; [done|]. csimpl.
      rewrite filter_cons_True, filter_cons_False, IH1, IH2 by (simpl; tauto).
      done. }
    assert (∀ period,
      filter (λ e, is_warning e) (proctor_calendars period sched) = []
      ∧ filter (λ e, ¬ is_warning e) (proctor_calendars period sched)
        = proctor_calendars period sched) as Hp.
    { intros period. unfold proctor_calendars.
      induction (group_by app_proctor (explode sched)) as [|g gs [IH1 IH2]];
        [done|]. csimpl.
      rewrite filter_cons_False, filter_cons_True, IH1, IH2 by (simpl; tauto).
      done. }
    rewrite !filter_app, !calendars_in_app, !calendars_in_warnings.
    rewrite (proj1 (Hw ws)), (proj2 (Hw ws)).
    rewrite (proj1 (Hp _)), (proj2 (Hp _)).
    rewrite (proj1 (calendars_in_proctor_calendars _ _)),
            (proj2 (calendars_in_proctor_calendars _ _)).
    repeat split; try done; by rewrite app_nil_r.
Qed.

Lemma build_sched_rows csv schedule_file start_offset_mins sched :
  build_sched csv schedule_file start_offset_mins = Some sched →
  ∃ evs,
    clean_proctor_schedule schedule_file = Some evs
    ∧ length sched = length evs
    ∧ ∀ n ev, evs !! n = Some ev →
        ∃ ce,
          sched !! n
          = Some (mkScheduled (ev_key (subtract_offset start_offset_mins ev))
                              (Proctor ev) ce)
          ∧ create_event (read_abbreviations csv) n
                         (subtract_offset start_offset_mins ev) = Some ce.
Proof.
  intros (evs & events & Hclean & [Hlen Hall]%create_events_from_lookup & ->)
         %build_sched_Some.
  exists evs. split; [done|]. rewrite length_fmap in Hlen. split.
  - unfold with_events. rewrite length_zip_with, length_fmap. lia.
  - intros n ev Hev.
    destruct (Hall n (subtract_offset start_offset_mins ev)) as (ce & Hce & Hc).
    { by rewrite list_lookup_fmap, Hev. }
    exists ce. split; [|done]. apply with_events_lookup.
    exists (subtract_offset start_offset_mins ev), ce.
    by rewrite list_lookup_fmap, Hev.
Qed.

Lemma clean_proctor_schedule_proctors schedule_file evs ev :
  clean_proctor_schedule schedule_file = Some evs → ev ∈ evs →
  NoDup (Proctor ev) ∧ Proctor ev ≠ [].
Proof.
  intros (_ & _ & Hbwd)%clean_proctor_schedule_lookup [n Hev]%list_elem_of_lookup.
  destruct (Hbwd n ev Hev) as (g & Hg & _ & ->).
  apply list_elem_of_lookup_2, agg_proctors_elem in Hg as (? & ? & _). done.
Qed.

Lemma length_filter_NoDup {A} `{EqDecision A} (x : A) (l : list A) :
  NoDup l →
  length (filter (λ y, y = x) l) = if decide (x ∈ l) then 1%nat else 0%nat.
Proof.
  induction 1 as [|y l Hy Hl IH]; [done|].
  rewrite filter_cons. destruct (decide (y = x)) as [->|Hne].
  - simpl. rewrite IH, (decide_True (P := x ∈ x :: l)) by left.
    by rewrite decide_False.
  - rewrite IH. destruct (decide (x ∈ l)) as [Hin|Hin].
    + by rewrite decide_True by by right.
    + rewrite decide_False; [done|].
      intros [?|?]%elem_of_cons; by simplify_eq.
Qed.

Lemma explode_row_filter s p :
  sched_proctors s ≠ [] →
  length (filter (λ a, app_proctor a = p) (explode_row s))
  = length (filter (λ q, q = p) (sched_proctors s)).
Proof.
  intros Hne. unfold explode_row.
  destruct (sched_proctors s) as [|q0 qs] eqn:Hqs; [done|]. clear.
  induction (q0 :: qs) as [|q l IH]; [done|].
  csimpl. rewrite !filter_cons. simpl. case_decide; simpl; by rewrite IH.
Qed.

Lemma explode_row_length s :
  sched_proctors s ≠ [] → length (explode_row s) = length (sched_proctors s).
Proof.
  intros Hne. unfold explode_row.
  destruct (sched_proctors s) as [|q0 qs] eqn:Hqs; [done|].
  by rewrite length_fmap.
Qed.

Lemma explode_counts sched evs :
  Forall2 (λ s ev, sched_proctors s = Proctor ev) sched evs →
  Forall (λ ev, NoDup (Proctor ev) ∧ Proctor ev ≠ []) evs →
  length (explode sched) = sum_list (length ∘ Proctor <$> evs)
  ∧ ∀ p, length (filter (λ a, app_proctor a = p) (explode sched))
         = length (filter (λ ev, p ∈ Proctor ev) evs).
Proof.
  induction 1 as [|s ev sched evs Hs Hrest IH]; intros Hall; [done|].
  apply Forall_cons in Hall as [[Hnd Hne] Hall].
  destruct (IH Hall) as [IH1 IH2]. unfold explode in *. csimpl. split.
  - rewrite length_app, IH1, explode_row_length by by rewrite Hs.
    by rewrite Hs.
  - intros p. rewrite filter_app, length_app, IH2.
    rewrite explode_row_filter by by rewrite Hs.
    rewrite Hs, length_filter_NoDup by done.
    rewrite filter_cons. by case_decide.
Qed.

Lemma build_sched_counts csv schedule_file start_offset_mins sched evs :
  build_sched csv schedule_file start_offset_mins = Some sched →
  clean_proctor_schedule schedule_file = Some evs →
  length (explode sched) = sum_list (length ∘ Proctor <$> evs)
  ∧ ∀ p, length (filter (λ a, app_proctor a = p) (explode sched))
         = length (filter (λ ev, p ∈ Proctor ev) evs).
Proof.
  intros (evs' & Hclean' & Hlen & Hrows)%build_sched_rows Hclean.
  simplify_eq. apply explode_counts.
  - apply Forall2_same_length_lookup. split; [done|].
    intros n s ev Hs Hev. destruct (Hrows n ev Hev) as (ce & Hs' & _).
    rewrite Hs in Hs'. by simplify_eq.
  - apply Forall_forall. intros ev Hev.
    by eapply clean_proctor_schedule_proctors.
Qed.

Lemma proctor_calendar_written period sched p :
  Some p ∈ app_proctor <$> explode sched →
  WriteCalendar PROCESSED_DATA_DIR
    (period +:+ "_" +:+ p +:+ "_proctoring.ics")
    (app_event <$> filter (λ a, app_proctor a = Some p) (explode sched))
  ∈ proctor_calendars period sched.
Proof.
  intros Hp. unfold proctor_calendars. apply list_elem_of_fmap.
  exists (Some p, filter (λ a, app_proctor a = Some p) (explode sched)).
  split; [done|]. by apply elem_of_group_by.
Qed.

Lemma elem_of_explode_proctor sched n s p :
  sched !! n = Some s → p ∈ sched_proctors s →
  mkAppointment (sched_key s) p (Event s) ∈ explode sched.
Proof.
  intros Hs Hp. unfold explode. apply list_elem_of_bind. exists s.
  split; [|by eapply list_elem_of_lookup_2]. unfold explode_row.
  destruct (sched_proctors s) as [|q qs]; [by apply elem_of_nil in Hp|].
  apply list_elem_of_fmap. by exists p.
Qed.

Lemma main_calendars csv schedule_file start_offset_mins effects :
  main csv schedule_file start_offset_mins = Some effects →
  ∃ sched evs,
    build_sched csv schedule_file start_offset_mins = Some sched
    ∧ clean_proctor_schedule schedule_file = Some evs
    ∧ calendars_in INTERIM_DATA_DIR effects = [Event <$> sched]
    ∧ calendars_in PROCESSED_DATA_DIR effects
      = group_calendar <$> group_by app_proctor (explode sched)
    ∧ ∀ e, e ∈ proctor_calendars (schedule_period sched) sched → e ∈ effects.
Proof.
  intros Hm.
  destruct (main_Some _ _ _ _ Hm) as (sched & ws & Hb & _ & ->).
  destruct (build_sched_rows _ _ _ _ Hb) as (evs & Hclean & _).
  exists sched, evs. split; [done|]. split; [done|].
  rewrite !calendars_in_app, !calendars_in_warnings.
  rewrite (proj1 (calendars_in_proctor_calendars _ _)),
          (proj2 (calendars_in_proctor_calendars _ _)).
  split; [done|]. split; [by rewrite app_nil_r|].
  intros e He. rewrite !elem_of_app. by eauto.
Qed.

(** C7. In a run that completes, the aggregate calendar holds one
    event per NormalizedEvent, the [n]-th event being the one built
    from the [n]-th NormalizedEvent; the calendars of the proctors
    hold, all together, as many events as the proctor lists of the
    NormalizedEvents have entries; and the calendar of a proctor holds
    as many events as there are NormalizedEvents that list the
    proctor. *)
Theorem calendars_event_counts csv schedule_file start_offset_mins effects :
  main csv schedule_file start_offset_mins = Some effects →
  ∃ evs cal,
    clean_proctor_schedule schedule_file = Some evs
    ∧ calendars_in INTERIM_DATA_DIR effects = [cal]
    ∧ length cal = length evs
    ∧ (∀ n ev, evs !! n = Some ev →
         ∃ ce, cal !! n = Some ce
               ∧ create_event (read_abbreviations csv) n
                   (subtract_offset start_offset_mins ev) = Some ce)
    ∧ sum_list (length <$> calendars_in PROCESSED_DATA_DIR effects)
      = sum_list (length ∘ Proctor <$> evs)
    ∧ ∀ p, (∃ ev, ev ∈ evs ∧ Some p ∈ Proctor ev) →
        ∃ period cal_p,
          WriteCalendar PROCESSED_DATA_DIR
            (period +:+ "_" +:+ p +:+ "_proctoring.ics") cal_p ∈ effects
          ∧ length cal_p = length (filter (λ ev, Some p ∈ Proctor ev) evs).
Proof.
  intros (sched & evs & Hb & Hclean & Hagg & Hpro & Hin)%main_calendars.
  destruct (build_sched_rows _ _ _ _ Hb) as (evs' & Hclean' & Hlen & Hrows).
  simplify_eq.
  destruct (build_sched_counts _ _ _ _ _ Hb Hclean) as [Hsum Hcount].
  exists evs, (Event <$> sched). split; [done|]. split; [done|].
  split; [by rewrite length_fmap|]. split; [|split].
  - intros n ev Hev. destruct (Hrows n ev Hev) as (ce & Hs & Hc).
    exists ce. split; [|done]. by rewrite list_lookup_fmap, Hs.
  - rewrite Hpro, <-Hsum, <-(group_by_sizes app_proctor (explode sched)).
    rewrite <-list_fmap_compose. f_equal. apply list_fmap_ext.
    intros _ g _. unfold group_calendar. simpl. by rewrite length_fmap.
  - intros p (ev & [n Hev]%list_elem_of_lookup & Hp).
    destruct (Hrows n ev Hev) as (ce & Hs & _).
    eexists _, _. split.
    + apply Hin, proctor_calendar_written.
      apply list_elem_of_fmap. eexists. split; [|by eapply elem_of_explode_proctor].
      done.
    + by rewrite length_fmap, Hcount.
Qed.

(** C10. In a run that completes, for every NormalizedEvent and every
    proctor in its list, the event written in the calendar of that
    proctor is the very event written for that NormalizedEvent in the
    aggregate calendar, with the uid drawn when it was built; and the
    calendars of the proctors hold no event but those of the aggregate
    calendar. *)
Theorem proctor_calendars_reuse_events csv schedule_file start_offset_mins
    effects :
  main csv schedule_file start_offset_mins = Some effects →
  ∃ evs cal,
    clean_proctor_schedule schedule_file = Some evs
    ∧ calendars_in INTERIM_DATA_DIR effects = [cal]
    ∧ (∀ n ev p,
         evs !! n = Some ev → Some p ∈ Proctor ev →
         ∃ ce period cal_p,
           cal !! n = Some ce
           ∧ uid ce = uuid4 n
           ∧ WriteCalendar PROCESSED_DATA_DIR
               (period +:+ "_" +:+ p +:+ "_proctoring.ics") cal_p ∈ effects
           ∧ ce ∈ cal_p)
    ∧ (∀ cal_p ce,
         cal_p ∈ calendars_in PROCESSED_DATA_DIR effects →
         ce ∈ cal_p → ce ∈ cal).
Proof.
  intros (sched & evs & Hb & Hclean & Hagg & Hpro & Hin)%main_calendars.
  destruct (build_sched_rows _ _ _ _ Hb) as (evs' & Hclean' & Hlen & Hrows).
  simplify_eq.
  exists evs, (Event <$> sched). split; [done|]. split; [done|]. split.
  - intros n ev p Hev Hp. destruct (Hrows n ev Hev) as (ce & Hs & Hc).
    pose proof (elem_of_explode_proctor sched n _ (Some p) Hs Hp) as Happ.
    simpl in Happ.
    exists ce. eexists _, _. split; [by rewrite list_lookup_fmap, Hs|].
    split.
    { apply create_event_fields in Hc as (? & ? & ? & ? & _ & _ & _ & _ & ->).
      done. }
    split.
    + apply Hin, proctor_calendar_written.
      apply list_elem_of_fmap. eexists. by split; [|exact Happ].
    + apply list_elem_of_fmap. eexists. split; [|apply list_elem_of_filter; split; [|exact Happ]]; done.
  - intros cal_p ce. rewrite Hpro.
    intros ([k rows] & -> & Hg%elem_of_group_by)%list_elem_of_fmap.
    destruct Hg as [_ ->]. unfold group_calendar. simpl.
    intros (a & -> & [_ Ha]%list_elem_of_filter)%list_elem_of_fmap.
    apply elem_of_explode in Ha as (s & Hs & _ & ->).
    apply list_elem_of_fmap. by exists s.
Qed.

(** *** Further properties of [create_events] *)

Lemma mapM_id_is_Some {A} (l : list (option A)) :
  is_Some (mapM id l) ↔ Forall is_Some l.
Proof. by rewrite mapM_is_Some. Qed.

Lemma create_event_is_Some abbreviations i row :
  is_Some (create_event abbreviations i row) ↔ can_build row.
Proof.
  unfold create_event, can_build. rewrite <-mapM_id_is_Some.
  destruct (Location (ev_key row)), (mapM id (Proctor row)),
    (Start_time (ev_key row)), (End_time (ev_key row)); simpl;
    split; try (intros [? ?]; done); try (intros (? & ? & ? & ?); done);
    try (intros ([? ?] & [? ?] & [? ?] & [? ?]); done); by eauto.
Qed.

Lemma create_events_from_is_Some abbreviations i sched :
  is_Some (create_events_from abbreviations i sched) ↔ Forall can_build sched.
Proof.
  revert i. induction sched as [|row rest IH]; intros i; simpl.
  - split; [by constructor|by eauto].
  - rewrite Forall_cons, <-(IH (S i)), <-(create_event_is_Some abbreviations i).
    destruct (create_event abbreviations i row),
      (create_events_from abbreviations (S i) rest); simpl;
      split; try (intros [? ?]; done); try (intros [[? ?] [? ?]]; done);
      by eauto.
Qed.

(** X4. [create_events] returns the events only if every row has a
    Location, a start and an end and no null among its proctors: on a
    frame with a row that lacks one of them it raises. *)
Theorem create_events_succeeds_only_if csv sched :
  is_Some (create_events csv sched) → Forall can_build sched.
Proof. apply create_events_from_is_Some. Qed.

(** X5. When [uuid4] never returns the same text twice, the events
    that [create_events] builds have pairwise distinct uids, there is
    one event per row, and each has the summary "Proctoring". *)
Theorem event_uids_distinct csv sched events :
  (∀ i j, uuid4 i = uuid4 j → i = j) →
  create_events csv sched = Some events →
  NoDup (uid <$> events)
  ∧ length events = length sched
  ∧ Forall (λ ev, summary ev = "Proctoring") events.
Proof.
  intros Hinj [Hlen Hall]%create_events_from_lookup.
  assert (∀ n ev, events !! n = Some ev →
            uid ev = uuid4 n ∧ summary ev = "Proctoring") as Hev.
  { intros n ev Hn.
    destruct (sched !! n) as [row|] eqn:Hrow.
    - destruct (Hall n row Hrow) as (ev' & Hev' & Hc). simplify_eq.
      by apply create_event_fields in Hc
        as (? & ? & ? & ? & _ & _ & _ & _ & ->).
    - apply lookup_ge_None in Hrow. apply lookup_lt_Some in Hn. lia. }
  split; [|split; [done|]].
  - apply NoDup_alt. intros i j u. rewrite !list_lookup_fmap.
    destruct (events !! i) as [ei|] eqn:Hi; [|done].
    destruct (events !! j) as [ej|] eqn:Hj; [|done].
    simpl. intros ? ?. simplify_eq. apply Hinj.
    destruct (Hev i ei Hi) as [<- _]. destruct (Hev j ej Hj) as [<- _]. done.
  - apply Forall_lookup. intros n ev Hn. by apply (Hev n ev).
Qed.

(** *** Further properties of [check_for_double_bookings] *)

(** X12. No pair of appointments is reported in both orders, and no
    appointment is reported against itself: a double booking gives one
    warning, not two. *)
Theorem double_bookings_asymmetric sched A B :
  (A, B) ∈ double_bookings sched →
  ((B, A) ∉ double_bookings sched) ∧ A ≠ B.
Proof.
  rewrite !elem_of_double_bookings, !double_booked_spec.
  intros (_ & _ & p & sa & ea & sb & la & lb
          & ? & ? & HsA & ? & HsB & ? & ? & Hlt & ? & ?).
  split.
  - intros (_ & _ & p' & sa' & ea' & sb' & la' & lb'
            & ? & ? & ? & ? & ? & ? & ? & ? & ? & ?).
    simplify_eq. lia.
  - intros ->. by simplify_eq.
Qed.

(** *** Further properties of [clean_proctor_schedule] and [main] *)

Lemma foldr_min_le (d : Z) (ds : list Z) :
  (foldr Z.min d ds ≤ d)%Z
  ∧ (∀ d', d' ∈ ds → foldr Z.min d ds ≤ d')%Z
  ∧ (foldr Z.min d ds = d ∨ foldr Z.min d ds ∈ ds).
Proof.
  induction ds as [|x ds (IH1 & IH2 & IH3)]; simpl.
  - split; [lia|]. split; [by intros ? ?%elem_of_nil|by left].
  - split; [lia|]. split.
    + intros d' [->|Hd']%elem_of_cons; [lia|]. specialize (IH2 d' Hd'). lia.
    + destruct (Z.min_spec x (foldr Z.min d ds)) as [[_ ->]|[_ ->]].
      * right. by left.
      * destruct IH3 as [?|?]; [by left|right; by right].
Qed.

(** X11. The date that names the period of a run is the earliest Date
    of the schedule: it is the Date of some row and no row has an
    earlier one; there is none exactly when every Date is null. *)
Theorem min_date_is_earliest sched :
  match min_date sched with
  | Some d =>
      (∃ s, s ∈ sched ∧ Date (sched_key s) = Some d)
      ∧ ∀ s d', s ∈ sched → Date (sched_key s) = Some d' → (d ≤ d')%Z
  | None => ∀ s, s ∈ sched → Date (sched_key s) = None
  end.
Proof.
  unfold min_date.
  destruct (omap (Date ∘ sched_key) sched) as [|d ds] eqn:Hds.
  - intros s Hs. destruct (Date (sched_key s)) as [d|] eqn:Hd; [|done].
    assert (d ∈ omap (Date ∘ sched_key) sched) as Hin.
    { apply list_elem_of_omap. by exists s. }
    rewrite Hds in Hin. by apply elem_of_nil in Hin.
  - destruct (foldr_min_le d ds) as (H1 & H2 & H3). split.
    + assert (foldr Z.min d ds ∈ omap (Date ∘ sched_key) sched) as Hin.
      { rewrite Hds. destruct H3 as [->|?]; [by left|by right]. }
      apply list_elem_of_omap in Hin as (s & Hs & Hd). by exists s.
    + intros s d' Hs Hd'.
      assert (d' ∈ omap (Date ∘ sched_key) sched) as Hin.
      { apply list_elem_of_omap. by exists s. }
      rewrite Hds in Hin. apply elem_of_cons in Hin as [->|Hin]; [done|].
      by apply H2.
Qed.

Lemma combine_is_Some d t :
  is_Some (combine d t) ↔
  ∀ d' t', d = Some d' → t = Some t' →
           is_Some (replace_time_zone (d' * ms_per_day + t' `mod` ms_per_day)%Z).
Proof.
  unfold combine. destruct d as [d|], t as [t|]; simpl;
    try (split; [by intros _ ? ? ? ?|by eauto]).
  rewrite fmap_is_Some. split.
  - intros ? ? ? ? ?. by simplify_eq.
  - intros H. by apply H.
Qed.

Lemma combine_Some_Some d t i :
  combine d t = Some (Some i) →
  ∃ d' t', d = Some d' ∧ t = Some t'
           ∧ replace_time_zone (d' * ms_per_day + t' `mod` ms_per_day)%Z
             = Some i.
Proof.
  unfold combine. destruct d as [d|], t as [t|]; simpl; try done.
  destruct (replace_time_zone _) eqn:Hz; simpl; [|done].
  intros ?. simplify_eq. by eauto.
Qed.

Lemma combine_times_is_Some k : is_Some (combine_times k) ↔ times_exist k.
Proof.
  unfold combine_times, times_exist.
  pose proof (combine_is_Some (Date k) (Start_time k)) as Hs.
  pose proof (combine_is_Some (Date k) (End_time k)) as He.
  destruct (combine (Date k) (Start_time k)) as [s|];
    destruct (combine (Date k) (End_time k)) as [e|]; simpl.
  - split; [|by eauto]. intros _ d t Hd [Ht|Ht].
    + by apply (proj1 Hs).
    + by apply (proj1 He).
  - split; [by intros [? ?]|]. intros H. exfalso.
    assert (is_Some (@None (option Z))) as [? ?]; [|done].
    apply He. intros d t Hd Ht. apply (H d t Hd). by right.
  - split; [by intros [? ?]|]. intros H. exfalso.
    assert (is_Some (@None (option Z))) as [? ?]; [|done].
    apply Hs. intros d t Hd Ht. apply (H d t Hd). by left.
  - split; [by intros [? ?]|]. intros H. exfalso.
    assert (is_Some (@None (option Z))) as [? ?]; [|done].
    apply Hs. intros d t Hd Ht. apply (H d t Hd). by left.
Qed.

(** X2. The date part of a time cell does not count: moving the
    Start time and the End time cells of a row by whole days leaves
    the combined times as they were. *)
Theorem combine_times_ignores_date_part (k : Key) (a b : Z) :
  combine_times
    {| Date := Date k;
       Start_time := (λ t, t + a * ms_per_day)%Z <$> Start_time k;
       End_time := (λ t, t + b * ms_per_day)%Z <$> End_time k;
       Location := Location k; Subject := Subject k; Course := Course k;
       Section_ := Section_ k; Instructor := Instructor k;
       Students_enrolled := Students_enrolled k |}
  = combine_times k.
Proof.
  unfold combine_times, combine. simpl.
  destruct (Date k) as [d|], (Start_time k) as [s|], (End_time k) as [e|];
    simpl; try done;
    rewrite ?(Z.mod_add s a ms_per_day), ?(Z.mod_add e b ms_per_day);
    done.
Qed.

Lemma agg_proctors_keys df k :
  (∃ g, g ∈ agg_proctors df ∧ ev_key g = k) ↔
  (∃ row, row ∈ df ∧ long_key row = k).
Proof.
  split.
  - intros (g & Hg & <-).
    destruct (agg_proctors_elem df g Hg) as (_ & Hne & Hiff).
    destruct (Proctor g) as [|p ps] eqn:Hp; [done|].
    exists (mkLongRow (ev_key g) p). split; [|done].
    apply Hiff. by left.
  - intros (row & Hrow & <-).
    destruct (agg_proctors_of_row df row Hrow) as (n & g & Hg & Hkey & _).
    exists g. split; [by eapply list_elem_of_lookup_2|done].
Qed.

Lemma clean_proctor_schedule_is_Some sched :
  is_Some (clean_proctor_schedule sched) ↔
  ∀ row, row ∈ long_frame sched → times_exist (long_key row).
Proof.
  unfold clean_proctor_schedule. rewrite mapM_is_Some, Forall_forall.
  assert (∀ g, is_Some (with_combined_times g) ↔ times_exist (ev_key g))
    as Hg.
  { intros g. rewrite <-combine_times_is_Some. unfold with_combined_times.
    destruct (combine_times (ev_key g)); simpl; split;
      try (intros [? ?]; done); by eauto. }
  split.
  - intros Hall row Hrow.
    destruct (proj2 (agg_proctors_keys (long_frame sched) (long_key row)))
      as (g & Hin & <-); [by eauto|]. by apply Hg, Hall.
  - intros Hall g Hin. apply Hg.
    destruct (proj1 (agg_proctors_keys (long_frame sched) (ev_key g)))
      as (row & Hrow & <-); [by eauto|]. by apply Hall.
Qed.

(** X3. The cleaning raises only in the zone conversion: it succeeds
    exactly when, for every row of the unpivoted and filled frame, the
    start and the end that can be combined exist in the zone; a null
    Date or time is not an error here. *)
Theorem clean_succeeds_iff sched :
  is_Some (clean_proctor_schedule sched) ↔
  ∀ row, row ∈ long_frame sched → times_exist (long_key row).
Proof. apply clean_proctor_schedule_is_Some. Qed.

Lemma long_frame_elem sched row :
  row ∈ long_frame sched →
  ∃ p i r j, long_proctor row = Some p
             ∧ sched !! i = Some r ∧ proctor_cell j r = Some p.
Proof.
  intros [n Hn]%list_elem_of_lookup. unfold long_frame, fill_null_forward in Hn.
  destruct (drop_nulls (unpivot sched) !! n) as [r0|] eqn:Hr0.
  - destruct (fill_from_lookup cDate null_row _ _ _ Hr0)
      as (row' & Hrow' & Hpr & _).
    rewrite Hn in Hrow'. simplify_eq.
    apply list_elem_of_lookup_2, list_elem_of_filter in Hr0 as [[p Hp] Hin].
    apply list_elem_of_bind in Hin as (j & Hin & _).
    apply list_elem_of_fmap in Hin as (r & -> & [i Hi]%list_elem_of_lookup).
    simpl in Hp. exists p, i, r, j. split; [by apply Hpr|done].
  - apply lookup_ge_None in Hr0. apply lookup_lt_Some in Hn.
    rewrite length_fill_from in Hn. lia.
Qed.

(** X1. The cleaning invents no proctor: in every NormalizedEvent the
    proctor list is not empty and holds no null, and each of its
    entries is the value of a Proctor cell of some row of the sheet. *)
Theorem proctors_come_from_sheet sched evs ev :
  clean_proctor_schedule sched = Some evs →
  ev ∈ evs →
  Proctor ev ≠ []
  ∧ ∀ c, c ∈ Proctor ev →
      ∃ p i r j, c = Some p ∧ sched !! i = Some r
                 ∧ proctor_cell j r = Some p.
Proof.
  intros Hclean Hev.
  split; [by eapply clean_proctor_schedule_proctors|].
  destruct (clean_proctor_schedule_lookup _ _ Hclean) as (_ & _ & Hbwd).
  apply list_elem_of_lookup in Hev as [n Hn].
  destruct (Hbwd n ev Hn) as (g & Hg & _ & ->).
  apply list_elem_of_lookup_2, agg_proctors_elem in Hg as (_ & _ & Hiff).
  intros c Hc%Hiff.
  apply long_frame_elem in Hc as (p & i & r & j & Hp & Hi & Hj).
  simpl in Hp. subst c. by exists p, i, r, j.
Qed.

Lemma combine_times_Some k k' :
  combine_times k = Some k' →
  combine (Date k) (Start_time k) = Some (Start_time k')
  ∧ combine (Date k) (End_time k) = Some (End_time k')
  ∧ Date k' = Date k ∧ Location k' = Location k.
Proof.
  unfold combine_times.
  destruct (combine (Date k) (Start_time k)) as [s|]; [|done].
  destruct (combine (Date k) (End_time k)) as [e|]; [|done].
  simpl. intros ?. by simplify_eq.
Qed.

Lemma build_sched_is_Some csv schedule_file start_offset_mins :
  is_Some (build_sched csv schedule_file start_offset_mins) ↔
  ∃ evs, clean_proctor_schedule schedule_file = Some evs
         ∧ Forall can_build evs.
Proof.
  assert (∀ evs : list NormalizedEvent,
            Forall can_build (subtract_offset start_offset_mins <$> evs)
            ↔ Forall can_build evs) as Hoff.
  { intros evs. rewrite Forall_fmap. apply Forall_proper; [|done].
    intros ev. unfold compose, can_build, subtract_offset. simpl.
    by rewrite fmap_is_Some. }
  unfold build_sched. split.
  - destruct (clean_proctor_schedule schedule_file) as [evs|]; simpl;
      [|by intros [? ?]].
    destruct (create_events csv _) as [events|] eqn:He; simpl;
      [|by intros [? ?]].
    intros _. exists evs. split; [done|].
    apply Hoff, (create_events_from_is_Some (read_abbreviations csv) 0).
    unfold create_events in He. by rewrite He.
  - intros (evs & -> & Hall). simpl.
    apply Hoff, (create_events_from_is_Some (read_abbreviations csv) 0)
      in Hall as [events Hev].
    unfold create_events. rewrite Hev. by eexists.
Qed.

Lemma main_is_Some csv schedule_file start_offset_mins :
  is_Some (main csv schedule_file start_offset_mins) →
  ∃ sched,
    build_sched csv schedule_file start_offset_mins = Some sched
    ∧ all_open (schedule_period sched) sched.
Proof.
  unfold main. intros [effects Hm].
  destruct (build_sched csv schedule_file start_offset_mins) as [sched|] eqn:Hb;
    [|done].
  exists sched. split; [done|].
  destruct (check_for_double_bookings_Some _ _ _ _ Hb) as (ws & _ & _ & Hc).
  simpl in Hm. rewrite Hc in Hm. simpl in Hm.
  destruct (mapM open_wb _) as [written|] eqn:Hw; [|done].
  apply mapM_open_wb_Some in Hw as [_ Hw].
  by apply open_proctor_calendars.
Qed.

(** X7. A run completes only if every row of the unpivoted and filled
    frame has a Date, a Start time, an End time and a Location, its
    start and end exist in the zone, and the file of every proctor's
    calendar can be opened: a cell that the forward fill leaves null
    makes the run raise. *)
Theorem main_completes_only_if csv schedule_file start_offset_mins :
  is_Some (main csv schedule_file start_offset_mins) →
  (∀ row, row ∈ long_frame schedule_file →
          filled_in (long_key row) ∧ times_exist (long_key row))
  ∧ ∃ sched,
      build_sched csv schedule_file start_offset_mins = Some sched
      ∧ all_open (schedule_period sched) sched.
Proof.
  intros (sched & Hb & Hopen)%main_is_Some. split; [|by exists sched].
  destruct (proj1 (build_sched_is_Some csv schedule_file start_offset_mins))
    as (evs & Hclean & Hall); [by eexists|].
  intros row Hrow.
  split; [|by apply (proj1 (clean_proctor_schedule_is_Some schedule_file));
            [rewrite Hclean; eauto|]].
  destruct (clean_proctor_schedule_lookup _ _ Hclean) as (_ & Hfwd & _).
  destruct (agg_proctors_of_row _ row Hrow) as (n & g & Hg & Hkey & _).
  destruct (Hfwd n g Hg) as (ev & Hev & Hcomb & _).
  rewrite Hkey in Hcomb.
  apply combine_times_Some in Hcomb as (Hs & He & _ & Hloc).
  apply list_elem_of_lookup_2 in Hev.
  destruct (proj1 (Forall_forall _ _) Hall ev Hev)
    as ([loc Hl] & _ & [s Hs'] & [e He']).
  rewrite Hs' in Hs. rewrite He' in He.
  apply combine_Some_Some in Hs as (d & t & Hd & Ht & _).
  apply combine_Some_Some in He as (d' & t' & _ & Ht' & _).
  unfold filled_in. rewrite Hd, Ht, Ht', <-Hloc, Hl. by eauto.
Qed.

Lemma clean_proctor_schedule_no_null schedule_file evs ev :
  clean_proctor_schedule schedule_file = Some evs → ev ∈ evs →
  Forall is_Some (Proctor ev).
Proof.
  intros (_ & _ & Hbwd)%clean_proctor_schedule_lookup [n Hev]%list_elem_of_lookup.
  destruct (Hbwd n ev Hev) as (g & Hg & _ & ->).
  apply list_elem_of_lookup_2, agg_proctors_elem in Hg as (_ & _ & Hiff).
  apply Forall_forall. intros c Hc%Hiff. by apply long_frame_proctor in Hc.
Qed.

Lemma build_sched_proctors csv schedule_file start_offset_mins sched s :
  build_sched csv schedule_file start_offset_mins = Some sched → s ∈ sched →
  NoDup (sched_proctors s) ∧ sched_proctors s ≠ []
  ∧ Forall is_Some (sched_proctors s).
Proof.
  intros (evs & Hclean & Hlen & Hrows)%build_sched_rows [n Hs]%list_elem_of_lookup.
  destruct (evs !! n) as [ev|] eqn:Hev.
  - destruct (Hrows n ev Hev) as (ce & Hs' & _).
    rewrite Hs in Hs'. simplify_eq. simpl.
    apply list_elem_of_lookup_2 in Hev.
    destruct (clean_proctor_schedule_proctors _ _ _ Hclean Hev). split; [done|].
    split; [done|]. by eapply clean_proctor_schedule_no_null.
  - apply lookup_ge_None in Hev. apply lookup_lt_Some in Hs. lia.
Qed.

Lemma filter_eq_NoDup {A} `{EqDecision A} (x : A) (l : list A) :
  NoDup l → filter (λ y, y = x) l = if decide (x ∈ l) then [x] else [].
Proof.
  induction 1 as [|y l Hy Hl IH]; [done|].
  rewrite filter_cons. destruct (decide (y = x)) as [->|Hne].
  - rewrite IH, (decide_True (P := x ∈ x :: l)) by left.
    by rewrite decide_False.
  - rewrite IH. destruct (decide (x ∈ l)) as [Hin|Hin].
    + by rewrite decide_True by by right.
    + rewrite decide_False; [done|].
      intros [?|?]%elem_of_cons; by simplify_eq.
Qed.

Lemma explode_row_restrict s c :
  NoDup (sched_proctors s) → sched_proctors s ≠ [] →
  app_event <$> filter (λ a, app_proctor a = c) (explode_row s)
  = if decide (c ∈ sched_proctors s) then [Event s] else [].
Proof.
  intros Hnd Hne. unfold explode_row.
  destruct (sched_proctors s) as [|q0 qs] eqn:Hqs; [done|].
  assert (∀ l : list (option string),
            app_event <$> filter (λ a, app_proctor a = c)
              ((λ p, mkAppointment (sched_key s) p (Event s)) <$> l)
            = (λ _, Event s) <$> filter (λ y, y = c) l) as Hl.
  { induction l as [|q l IH]; [done|]. csimpl. rewrite !filter_cons. simpl.
    case_decide; csimpl; by rewrite IH. }
  rewrite Hl, filter_eq_NoDup by done. by case_decide.
Qed.

Lemma explode_restrict sched c :
  Forall (λ s, NoDup (sched_proctors s) ∧ sched_proctors s ≠ []) sched →
  app_event <$> filter (λ a, app_proctor a = c) (explode sched)
  = Event <$> filter (λ s, c ∈ sched_proctors s) sched.
Proof.
  induction 1 as [|s sched [Hnd Hne] _ IH]; [done|].
  unfold explode in *. csimpl.
  rewrite filter_app, fmap_app, IH, explode_row_restrict by done.
  rewrite filter_cons. by case_decide.
Qed.

Lemma explode_proctor_Some sched a :
  Forall (λ s, sched_proctors s ≠ [] ∧ Forall is_Some (sched_proctors s))
         sched →
  a ∈ explode sched →
  ∃ p s, app_proctor a = Some p ∧ s ∈ sched ∧ Some p ∈ sched_proctors s.
Proof.
  intros Hall (s & Ha & Hs)%list_elem_of_bind.
  destruct (proj1 (Forall_forall _ _) Hall s Hs) as [Hne Hsome].
  unfold explode_row in Ha.
  destruct (sched_proctors s) as [|q qs] eqn:Hqs; [done|].
  apply list_elem_of_fmap in Ha as (c & -> & Hc). simpl.
  destruct (proj1 (Forall_forall _ _) Hsome c Hc) as [p ->].
  exists p, s. by rewrite Hqs.
Qed.

Lemma main_effects csv schedule_file start_offset_mins effects :
  main csv schedule_file start_offset_mins = Some effects →
  ∃ sched ws,
    build_sched csv schedule_file start_offset_mins = Some sched
    ∧ effects =
        (LogWarning <$> ws)
        ++ [aggregate_calendar (schedule_period sched) sched]
        ++ proctor_calendars (schedule_period sched) sched
        ++ [LogSuccess (schedule_period sched)]
    ∧ ∀ name cal,
        WriteCalendar PROCESSED_DATA_DIR name cal ∈ effects ↔
        WriteCalendar PROCESSED_DATA_DIR name cal
        ∈ proctor_calendars (schedule_period sched) sched.
Proof.
  intros (sched & ws & Hb & _ & ->)%main_Some. exists sched, ws.
  split; [done|]. split; [done|]. intros name cal.
  rewrite !elem_of_app, list_elem_of_fmap, !list_elem_of_singleton. split.
  - intros [(w & ? & _)|[?|[?|?]]]; by simplify_eq.
  - by eauto.
Qed.

(** X6. In a run that completes, the [n]-th event of the aggregate
    calendar starts [start_offset_mins] minutes before the start of
    the [n]-th NormalizedEvent and ends at its end. *)
Theorem events_start_offset_early csv schedule_file start_offset_mins effects :
  main csv schedule_file start_offset_mins = Some effects →
  ∃ evs cal,
    clean_proctor_schedule schedule_file = Some evs
    ∧ calendars_in INTERIM_DATA_DIR effects = [cal]
    ∧ ∀ n ev, evs !! n = Some ev →
        ∃ ce start end_,
          cal !! n = Some ce
          ∧ Start_time (ev_key ev) = Some start
          ∧ End_time (ev_key ev) = Some end_
          ∧ dtstart ce = (start - start_offset_mins * 60000)%Z
          ∧ dtend ce = end_.
Proof.
  intros (sched & evs & Hb & Hclean & Hagg & _ & _)%main_calendars.
  destruct (build_sched_rows _ _ _ _ Hb) as (evs' & Hclean' & _ & Hrows).
  simplify_eq. exists evs, (Event <$> sched). split; [done|]. split; [done|].
  intros n ev Hev. destruct (Hrows n ev Hev) as (ce & Hs & Hc).
  apply create_event_fields in Hc
    as (loc & ps & start & end_ & _ & _ & Hstart & Hend & ->).
  simpl in Hstart, Hend.
  destruct (Start_time (ev_key ev)) as [start0|]; [|done].
  simpl in Hstart. simplify_eq.
  eexists _, start0, end_. split; [by rewrite list_lookup_fmap, Hs|done].
Qed.

(** X10. In a run that completes, every calendar written for a
    proctor is named after that proctor and holds the events of the
    aggregate calendar whose NormalizedEvent lists the proctor, in the
    order of the aggregate calendar; it is never empty. *)
Theorem proctor_calendar_is_restriction csv schedule_file start_offset_mins
    effects :
  main csv schedule_file start_offset_mins = Some effects →
  ∃ sched,
    build_sched csv schedule_file start_offset_mins = Some sched
    ∧ calendars_in INTERIM_DATA_DIR effects = [Event <$> sched]
    ∧ ∀ name cal_p,
        WriteCalendar PROCESSED_DATA_DIR name cal_p ∈ effects →
        ∃ p,
          name = schedule_period sched +:+ "_" +:+ p +:+ "_proctoring.ics"
          ∧ cal_p = Event <$> filter (λ s, Some p ∈ sched_proctors s) sched
          ∧ cal_p ≠ [].
Proof.
  intros Hm.
  destruct (main_calendars _ _ _ _ Hm) as (sched & _ & Hb & _ & Hagg & _ & _).
  destruct (main_effects _ _ _ _ Hm) as (sched' & ws & Hb' & _ & Hin).
  simplify_eq. exists sched. split; [done|]. split; [done|].
  intros name cal_p Hw%Hin. unfold proctor_calendars in Hw.
  apply list_elem_of_fmap in Hw as ([k rows] & Heq & Hg%elem_of_group_by).
  destruct Hg as [Hk ->]. unfold group_calendar in Heq. simpl in Heq.
  apply list_elem_of_fmap in Hk as (a & -> & Ha).
  destruct (explode_proctor_Some sched a) as (p & s & Hp & Hs & Hps);
    [|done|].
  { apply Forall_forall. intros s Hs.
    destruct (build_sched_proctors _ _ _ _ _ Hb Hs) as (_ & ? & ?). done. }
  rewrite Hp in Heq. simplify_eq. exists p. split; [done|].
  rewrite explode_restrict.
  - split; [done|]. intros Hnil.
    assert (Event s ∈ Event <$> filter (λ s, Some p ∈ sched_proctors s) sched)
      as Hin'; [|rewrite Hnil in Hin'; by apply elem_of_nil in Hin'].
    apply list_elem_of_fmap. exists s. split; [done|].
    by apply list_elem_of_filter.
  - apply Forall_forall. intros s' Hs'.
    destruct (build_sched_proctors _ _ _ _ _ Hb Hs') as (? & ? & _). done.
Qed.

(** *** Strings *)

Lemma length_append (s t : string) :
  String.length (s +:+ t) = (String.length s + String.length t)%nat.
Proof.
  induction s as [|c s IH]; [done|].
  change (S (String.length (s +:+ t))
          = S (String.length s + String.length t)). by rewrite IH.
Qed.

Lemma append_inj_l (s a b : string) : s +:+ a = s +:+ b → a = b.
Proof.
  induction s as [|c s IH]; [done|].
  change (String c (s +:+ a) = String c (s +:+ b) → a = b).
  intros H. injection H as H. by apply IH.
Qed.

Lemma append_inj_r (a b t : string) : a +:+ t = b +:+ t → a = b.
Proof.
  revert b. induction a as [|c a IH]; intros [|c' b] H.
  - done.
  - apply (f_equal String.length) in H.
    rewrite !length_append in H. simpl in H. lia.
  - apply (f_equal String.length) in H.
    rewrite !length_append in H. simpl in H. lia.
  - change (String c (a +:+ t) = String c' (b +:+ t)) in H.
    injection H as -> H. f_equal. by apply IH.
Qed.

Lemma names_in_warnings dir (ws : list Warning) :
  names_in dir (LogWarning <$> ws) = [].
Proof. induction ws as [|w ws IH]; [done|]. by csimpl. Qed.

Lemma names_in_proctor_calendars period sched :
  names_in PROCESSED_DATA_DIR (proctor_calendars period sched)
  = (λ g : option string * list Appointment,
       period +:+ "_" +:+ py_str g.1 +:+ "_proctoring.ics")
    <$> group_by app_proctor (explode sched).
Proof.
  unfold proctor_calendars.
  induction (group_by app_proctor (explode sched)) as [|g gs IH]; [done|].
  csimpl. by rewrite IH.
Qed.

(** X9. In a run that completes, the calendars of the proctors are
    written under pairwise distinct file names: no proctor's calendar
    overwrites another's. *)
Theorem proctor_file_names_distinct csv schedule_file start_offset_mins
    effects :
  main csv schedule_file start_offset_mins = Some effects →
  NoDup (names_in PROCESSED_DATA_DIR effects).
Proof.
  intros (sched & ws & Hb & _ & ->)%main_Some.
  unfold names_in. rewrite !omap_app.
  fold (names_in PROCESSED_DATA_DIR (LogWarning <$> ws)).
  fold (names_in PROCESSED_DATA_DIR
          (proctor_calendars (schedule_period sched) sched)).
  rewrite names_in_warnings, names_in_proctor_calendars. simpl.
  rewrite app_nil_r.
  apply NoDup_fmap_2_strong; [|eapply NoDup_fmap_1, group_by_keys_NoDup].
  intros [k rows] [k' rows'] Hg Hg' Hname. simpl in Hname.
  apply elem_of_group_by in Hg as [Hk ->], Hg' as [Hk' ->].
  apply append_inj_l, append_inj_l, append_inj_r in Hname.
  assert (∀ c, c ∈ app_proctor <$> explode sched → is_Some c) as Hsome.
  { intros c (a & -> & Ha)%list_elem_of_fmap.
    destruct (explode_proctor_Some sched a) as (p & _ & -> & _);
      [|done|by eexists].
    apply Forall_forall. intros s Hs.
    destruct (build_sched_proctors _ _ _ _ _ Hb Hs) as (_ & ? & ?). done. }
  destruct (Hsome k Hk) as [p ->]. destruct (Hsome k' Hk') as [p' ->].
  simpl in Hname. by subst.
Qed.

Lemma unordered_empty {A} : unordered A [] = [].
Proof. apply Permutation_nil_r. by rewrite unordered_perm. Qed.

Lemma drop_nulls_unpivot_no_proctor sched :
  Forall (λ r, Forall (λ c, c = None) (raw_proctors r)) sched →
  drop_nulls (unpivot sched) = [].
Proof.
  intros Hall. apply elem_of_nil_inv.
  intros row [[p Hp] Hrow]%list_elem_of_filter.
  apply list_elem_of_bind in Hrow as (j & Hrow & _).
  apply list_elem_of_fmap in Hrow as (r & -> & Hr). simpl in Hp.
  rewrite proctor_cell_all_null in Hp; [done|].
  by apply (proj1 (Forall_forall _ _) Hall).
Qed.

(** X8. A sheet that names no proctor in any row gives an empty
    schedule: the run completes without a warning, writes an aggregate
    calendar without events under the name "None_proctoring.ics", the
    period of no date being printed as None, and writes no calendar
    for any proctor. *)
Theorem run_without_proctors csv schedule_file start_offset_mins :
  Forall (λ r, Forall (λ c, c = None) (raw_proctors r)) schedule_file →
  main csv schedule_file start_offset_mins
  = Some [WriteCalendar INTERIM_DATA_DIR "None_proctoring.ics" [];
          LogSuccess "None"].
Proof.
  intros Hall. unfold main, build_sched, clean_proctor_schedule, long_frame.
  rewrite drop_nulls_unpivot_no_proctor by done.
  unfold agg_proctors, group_by. simpl. rewrite unordered_empty. simpl.
  unfold check_for_double_bookings, double_bookings, proctor_calendars,
    group_by. simpl.
  rewrite !unordered_empty, filter_nil, unordered_empty. done.
Qed.

Lemma prefix_true (old s : string) :
  String.prefix old s = true → ∃ rest, s = old +:+ rest.
Proof.
  revert s. induction old as [|c old IH]; intros s H.
  - by exists s.
  - destruct s as [|c' s]; [done|]. simpl in H.
    destruct (ascii_dec c c') as [->|]; [|done].
    destruct (IH s H) as [rest ->]. by exists rest.
Qed.

Lemma replace_from_unfold (old new : string) (c : ascii) (s : string) :
  replace_from old new 0 (String c s)
  = if String.prefix old (String c s)
    then new +:+ replace_from old new (String.length old - 1) s
    else String c (replace_from old new 0 s).
Proof. done. Qed.

Lemma replace_from_no_occurrence (old new s : string) :
  ¬ occurs_in old s → replace_from old new 0 s = s.
Proof.
  induction s as [|c s IH]; intros Hno; [done|].
  rewrite replace_from_unfold.
  destruct (String.prefix old (String c s)) eqn:Hp.
  - destruct Hno. apply prefix_true in Hp as [rest Hrest].
    by exists "", rest.
  - f_equal. apply IH. intros (before & after & ->). apply Hno.
    by exists (String c before), after.
Qed.

Lemma replace_no_occurrence (old new s : string) :
  old ≠ "" → ¬ occurs_in old s → replace old new s = s.
Proof.
  intros Hne Hno. destruct old as [|c old]; [done|].
  by apply replace_from_no_occurrence.
Qed.

Lemma substitute_no_occurrence abbreviations s :
  (∀ a, a ∈ abbreviations →
        Abbreviation a ≠ "" ∧ ¬ occurs_in (Abbreviation a) s) →
  substitute abbreviations s = s.
Proof.
  unfold substitute. induction abbreviations as [|a l IH]; intros Hall; [done|].
  simpl. destruct (Hall a) as [Hne Hno]; [by left|].
  rewrite replace_no_occurrence by done. apply IH.
  intros a' Ha'. apply Hall. by right.
Qed.

(** X13. A building that holds none of the codes of the table is left
    as it is by the substitution: an unknown building is printed
    unchanged, without an error. *)
Theorem unknown_building_unchanged csv building :
  (∀ a, a ∈ csv →
        Abbreviation a ≠ "" ∧ ¬ occurs_in (Abbreviation a) building) →
  substitute (read_abbreviations csv) building = building.
Proof.
  intros Hall. apply substitute_no_occurrence. intros a' Ha'.
  rewrite read_abbreviations_perm in Ha'.
  apply list_elem_of_fmap in Ha' as (a & -> & Ha). simpl. by apply Hall.
Qed.

(** X14. The building that [create_events] reads off a Location is
    the text before its first dash: it holds no dash, and the Location
    is either that text alone or that text, a dash and the rest. *)
Theorem before_dash_splits_location loc :
  ¬ occurs_in "-" (before_dash loc)
  ∧ (before_dash loc = loc
     ∨ ∃ room, loc = before_dash loc +:+ "-" +:+ room).
Proof.
  induction loc as [|c loc [IH1 IH2]]; simpl.
  - split; [|by left]. intros ([|? ?] & after & H); discriminate H.
  - destruct (Ascii.eqb c "-") eqn:Hc.
    + apply Ascii.eqb_eq in Hc as ->. split.
      * intros ([|? ?] & after & H); discriminate H.
      * right. by exists loc.
    + apply Ascii.eqb_neq in Hc. split.
      * intros ([|c' before] & after & H).
        -- injection H as -> _. done.
        -- injection H as _ H. apply IH1. by exists before, after.
      * destruct IH2 as [->|[room Hroom]]; [by left|].
        right. exists room.
        change (String c loc
                = String c (before_dash loc +:+ "-" +:+ room)).
        by f_equal.
Qed.

(** *** [prompt_for_file] *)

Lemma ask_Some int files typed f :
  (ask int files typed).2 = Some f ↔
  ∃ skipped line rest choice,
    typed = skipped ++ line :: rest
    ∧ Forall (λ l, ¬ valid_choice int files l) skipped
    ∧ int line = Some choice
    ∧ (1 ≤ choice ≤ Z.of_nat (length files))%Z
    ∧ files !! Z.to_nat (choice - 1) = Some f.
Proof.
  induction typed as [|line typed IH]; simpl.
  - split; [done|]. intros ([|? ?] & ? & ? & ? & Heq & _); discriminate Heq.
  - destruct (int line) as [choice|] eqn:Hint.
    + case_bool_decide as Hrange; simpl.
      * split.
        -- intros Hf. exists [], line, typed, choice.
           split; [done|]. split; [by constructor|]. by split; [|split].
        -- intros ([|l skipped] & line' & rest & choice' & Heq & Hsk & Hi & _ & Hf).
           ++ simpl in Heq. by simplify_eq.
           ++ simpl in Heq. simplify_eq.
              apply Forall_cons in Hsk as [Hnot _]. destruct Hnot.
              by exists choice.
      * rewrite IH. split.
        -- intros (skipped & line' & rest & choice' & -> & Hsk & ?).
           exists (line :: skipped), line', rest, choice'.
           split; [done|]. split; [|done].
           constructor; [|done]. intros (c & Hc & ?). by simplify_eq.
        -- intros ([|l skipped] & line' & rest & choice' & Heq & Hsk & Hi & Hr & Hf);
             simpl in Heq; simplify_eq; [lia|].
           apply Forall_cons in Hsk as [_ Hsk].
           by exists skipped, line', rest, choice'.
    + simpl. rewrite IH. split.
      * intros (skipped & line' & rest & choice' & -> & Hsk & ?).
        exists (line :: skipped), line', rest, choice'.
        split; [done|]. split; [|done].
        constructor; [|done]. intros (c & Hc & ?). by simplify_eq.
      * intros ([|l skipped] & line' & rest & choice' & Heq & Hsk & Hi & Hr & Hf);
          simpl in Heq; simplify_eq.
        apply Forall_cons in Hsk as [_ Hsk].
        by exists skipped, line', rest, choice'.
Qed.

(** X15. [prompt_for_file] returns a file exactly when some typed line
    is a number from 1 to the number of files: it returns the file at
    the position given by the first such line, having passed over
    every line before it, and the file it returns is one of the files
    it was given. *)
Theorem prompt_returns_first_valid_choice int files typed f :
  (prompt_for_file int files typed).2 = Some f ↔
  ∃ skipped line rest choice,
    typed = skipped ++ line :: rest
    ∧ Forall (λ l, ¬ valid_choice int files l) skipped
    ∧ int line = Some choice
    ∧ (1 ≤ choice ≤ Z.of_nat (length files))%Z
    ∧ files !! Z.to_nat (choice - 1) = Some f
    ∧ f ∈ files.
Proof.
  unfold prompt_for_file. simpl. rewrite ask_Some. split.
  - intros (skipped & line & rest & choice & ? & ? & ? & ? & Hf).
    exists skipped, line, rest, choice.
    do 5 (split; [done|]). by eapply list_elem_of_lookup_2.
  - intros (skipped & line & rest & choice & ? & ? & ? & ? & Hf & _).
    by exists skipped, line, rest, choice.
Qed.

(** X16. Given no file, [prompt_for_file] never returns one, whatever
    is typed: it asks again after every line, printing one prompt and
    one complaint per line, until the input ends. *)
Theorem prompt_without_files int typed :
  (prompt_for_file int [] typed).2 = None
  ∧ length (prompt_for_file int [] typed).1
    = (2 * length typed + 2)%nat.
Proof.
  unfold prompt_for_file. simpl.
  induction typed as [|line typed [IH1 IH2]]; [done|]. simpl.
  destruct (int line) as [choice|].
  - rewrite bool_decide_false by (simpl; lia). simpl. split; [done|].
    rewrite IH2. lia.
  - simpl. split; [done|]. rewrite IH2. lia.
Qed.

End Pipeline.

(** ** The properties on the sample inputs *)

Lemma frame_order_perm : ∀ A (l : list A), frame_order A l ≡ₚ l.
Proof. intros A l. reflexivity. Defined.

(** C4, on the sheet whose first row has no Date: the copy of that
    row for "Proctor 1" keeps the null. *)
Lemma first_row_null_kept_witness :
  cell cDate (raw_key row_without_date) = None
  ∧ proctor_cell 0 row_without_date = Some "A"
  ∧ ∃ row,
      long_frame sheet_without_first_date
        !! copy_index sheet_without_first_date 0 0 = Some row
      ∧ long_proctor row = Some "A"
      ∧ (cell cDate (long_key row) = None ↔
         ∀ above,
           above ∈ take (copy_index sheet_without_first_date 0 0)
                        (drop_nulls (unpivot sheet_without_first_date)) →
           cell cDate (long_key above) = None)
      ∧ (0%nat = 0%nat → cell cDate (long_key row) = None).
Proof.
  split; [reflexivity|]. split; [reflexivity|].
  apply (first_row_null_kept_iff_nothing_above cDate row_without_date
           [mkRawRow sample_exam [Some "C"; None]] 0 "A"); reflexivity.
Defined.

(** C4 without that condition fails on the same sheet: the copy of the
    first row for "Proctor 2" stands below the copy of the second row for
    "Proctor 1", and takes its Date. *)
Lemma forward_fill_recovers_first_row_null :
  cell cDate (raw_key row_without_date) = None
  ∧ proctor_cell 1 row_without_date = Some "B"
  ∧ ∃ row,
      long_frame sheet_without_first_date
        !! copy_index sheet_without_first_date 0 1 = Some row
      ∧ long_proctor row = Some "B"
      ∧ cell cDate (long_key row) = Some 19905%Z.
Proof.
  split; [reflexivity|]. split; [reflexivity|].
  eexists. split; [vm_compute; reflexivity|]. split; reflexivity.
Qed.

(** C1, on the double booking of proctor A. *)
Lemma double_booking_reported_witness :
  (∀ A (l : list A), frame_order A l ≡ₚ l)
  ∧ double_bookings frame_order [booking_in_X; booking_in_Y]
    = [(mkAppointment (sched_key booking_in_X) (Some "A") (Event booking_in_X),
        mkAppointment (sched_key booking_in_Y) (Some "A") (Event booking_in_Y))]
  ∧ ∃ w, check_for_double_bookings frame_order [booking_in_X; booking_in_Y]
         = Some [LogWarning w].
Proof.
  split; [exact frame_order_perm|].
  apply (proj1 (proj2 (proj2
           (double_booking_reported_iff frame_order frame_order_perm)))
         "A" "X" "Y" 1719806400000%Z booking_in_X booking_in_Y);
    [discriminate|reflexivity..].
Defined.

(** C9 and C6, on the cleaned frame with a make-up exam. *)
Lemma location_field_witness :
  ∃ events,
    create_events frame_order sample_uuid4 sample_csv sample_cleaned
    = Some events
    ∧ Forall2 (λ row ev, Location (ev_key row) = Some (location ev))
              sample_cleaned events.
Proof.
  eexists. split; [vm_compute; reflexivity|].
  apply (location_field_is_raw_location frame_order sample_uuid4 sample_csv).
  vm_compute. reflexivity.
Defined.

Lemma description_branches_witness :
  ∃ events row ev,
    create_events frame_order sample_uuid4 sample_csv sample_cleaned
    = Some events
    ∧ sample_cleaned !! 1%nat = Some row
    ∧ events !! 1%nat = Some ev
    ∧ ∃ proctors loc,
        mapM id (Proctor row) = Some proctors
        ∧ Location (ev_key row) = Some loc
        ∧ (Subject (ev_key row) = Some "Make-up Exam" →
           description ev =
             "Make-up exam" +:+ nl +:+ "Proctors: " +:+ join ", " proctors)
        ∧ (Subject (ev_key row) ≠ Some "Make-up Exam" →
           description ev =
             py_str (Subject (ev_key row)) +:+ " " +:+
             py_str (Course (ev_key row)) +:+ "-" +:+
             py_str (Section_ (ev_key row)) +:+ " for " +:+
             py_str (Instructor (ev_key row)) +:+ ", " +:+
             py_int (Students_enrolled (ev_key row)) +:+ " students" +:+ nl +:+
             "Proctors: " +:+ join ", " proctors +:+ nl +:+
             "Building: " +:+
             substitute (read_abbreviations frame_order sample_csv)
                        (before_dash loc)).
Proof.
  eexists _, _, _. split; [vm_compute; reflexivity|].
  split; [reflexivity|]. split; [reflexivity|].
  eapply (description_branches_on_subject frame_order sample_uuid4
            sample_csv sample_cleaned _ 1%nat); [vm_compute|..]; reflexivity.
Defined.

(** C3, on the table with the codes S and SC: SC is the first code of
    the sorted table, S the only later one, and the loop tries S on
    what the replacement of SC made of the building. *)
Lemma longest_code_tried_first_witness :
  let SC := mkAbbreviation "SC" ("Science Centre: " +:+ "2 College Ave")
                           "2 College Ave" in
  let S := mkAbbreviation "S" ("Sx: " +:+ "1 Main Rd") "1 Main Rd" in
  (∀ A (l : list A), frame_order A l ≡ₚ l)
  ∧ read_abbreviations frame_order sample_csv = [] ++ SC :: [S]
  ∧ (substitute (read_abbreviations frame_order sample_csv) "SC"
     = substitute [S] (replace (Abbreviation SC) (Building SC)
                               (substitute [] "SC"))
     ∧ (∀ b, b ∈ [] → (code_length SC ≤ code_length b)%nat)
     ∧ (∀ b, b ∈ [S] → (code_length b ≤ code_length SC)%nat))
  ∧ before_dash "SC-100" = "SC"
  ∧ substitute (read_abbreviations frame_order sample_csv)
               (before_dash "SC-100")
    = substitute [S] ("Science Centre: " +:+ "2 College Ave")
  ∧ substitute (read_abbreviations frame_order sample_csv)
               (before_dash "SC-100") ≠ "Sxc-100"
  ∧ substitute (read_abbreviations frame_order sample_csv)
               (before_dash "SC-100") ≠ "SxC-100".
Proof.
  intros SC S.
  split; [exact frame_order_perm|].
  split; [vm_compute; reflexivity|].
  split.
  - apply (proj1 (proj2 (longest_code_tried_first
                           frame_order frame_order_perm))
             sample_csv [] SC [S] "SC").
    vm_compute; reflexivity.
  - exact (proj2 (proj2 (proj2 (longest_code_tried_first
                                  frame_order frame_order_perm))
                    "1 Main Rd" "2 College Ave")).
Defined.

(** C3 with the result "Science Centre-100" fails on that table: the
    dash and the room are not in the text that is substituted, the address follows the name,
    and S is replaced in the name that SC has put in. *)
Lemma substitution_is_not_science_centre_100 :
  substitute (read_abbreviations frame_order sample_csv)
             (before_dash "SC-100")
  = "Sx: 1 Main Rdcience Centre: 2 College Ave"
  ∧ substitute (read_abbreviations frame_order sample_csv)
               (before_dash "SC-100") ≠ "Science Centre-100"
  ∧ ¬ ∃ addrS addrSC,
        substitute
          (read_abbreviations frame_order
             [mkAbbreviation "S" "Sx" addrS;
              mkAbbreviation "SC" "Science Centre" addrSC])
          (before_dash "SC-100")
        = "Science Centre-100".
Proof.
  split; [vm_compute; reflexivity|]. split.
  - intros H. vm_compute in H. discriminate H.
  - intros (addrS & addrSC & H). cbv in H. discriminate H.
Qed.

(** C2, on the sheet with a continuation row and a blank row. *)
Lemma every_proctor_in_one_group_witness :
  (∀ A (l : list A), frame_order A l ≡ₚ l)
  ∧ ∃ evs,
      clean_proctor_schedule frame_order sample_zone sample_sheet = Some evs
      ∧ (∀ i r j p,
           sample_sheet !! i = Some r → proctor_cell j r = Some p →
           ∃ row n ev,
             long_frame sample_sheet !! copy_index sample_sheet i j = Some row
             ∧ long_proctor row = Some p
             ∧ (∀ A (c : column A) v,
                  cell c (raw_key r) = Some v → cell c (long_key row) = Some v)
             ∧ evs !! n = Some ev
             ∧ Some p ∈ Proctor ev
             ∧ combine_times sample_zone (long_key row) = Some (ev_key ev)
             ∧ ∀ n' g',
                 agg_proctors frame_order (long_frame sample_sheet) !! n'
                 = Some g' →
                 ev_key g' = long_key row → n' = n)
      ∧ (∀ ev, ev ∈ evs → NoDup (Proctor ev))
      ∧ (∀ before r after,
           sample_sheet = before ++ r :: after →
           Forall (λ c, c = None) (raw_proctors r) →
           clean_proctor_schedule frame_order sample_zone (before ++ after)
           = Some evs).
Proof.
  split; [exact frame_order_perm|].
  eexists. split; [vm_compute; reflexivity|].
  apply (every_proctor_in_one_group frame_order sample_zone frame_order_perm
           sample_sheet).
  vm_compute. reflexivity.
Defined.

(** C2 with the cells of the NormalizedEvent as its key fails on the
    sheet that writes one exam with two date parts in its time cells: the two rows fall in two groups,
    the two NormalizedEvents have the same cells once Date and time are
    combined, and proctor A of the first row is in both. *)
Lemma one_exam_two_normalized_events :
  ∃ e1 e2,
    clean_proctor_schedule frame_order sample_zone sheet_with_two_date_parts
    = Some [e1; e2]
    ∧ sheet_with_two_date_parts !! 0%nat
      = Some (mkRawRow sample_exam_1899 [Some "A"; Some "B"])
    ∧ combine_times sample_zone sample_exam_1899 = Some (ev_key e1)
    ∧ combine_times sample_zone sample_exam_1899 = Some (ev_key e2)
    ∧ Some "A" ∈ Proctor e1
    ∧ Some "A" ∈ Proctor e2
    ∧ e1 ≠ e2.
Proof.
  eexists _, _. split; [vm_compute; reflexivity|].
  split; [reflexivity|]. split; [vm_compute; reflexivity|].
  split; [vm_compute; reflexivity|].
  split; [by left|]. split; [by left|]. intros H. discriminate H.
Qed.

(** C5, on a run over the sheet that books proctor A twice: the run
    logs one warning and completes. *)
Lemma double_bookings_never_fatal_witness :
  (∀ A (l : list A), frame_order A l ≡ₚ l)
  ∧ ∃ sched,
      build_sched frame_order sample_zone sample_uuid4 sample_csv
                  sheet_with_double_booking 30 = Some sched
      ∧ length (double_bookings frame_order sched) = 1%nat
      ∧ all_open frame_order sample_can_open
                 (schedule_period sample_strftime sched) sched
      ∧ ∃ ws,
          check_for_double_bookings frame_order sched
          = Some (LogWarning <$> ws)
          ∧ length ws = length (double_bookings frame_order sched)
          ∧ (all_open frame_order sample_can_open
                      (schedule_period sample_strftime sched) sched →
             ∃ effects,
               main frame_order sample_zone sample_uuid4 sample_strftime
                    sample_can_open sample_csv sheet_with_double_booking 30
               = Some effects
               ∧ filter (λ e, is_warning e) effects = LogWarning <$> ws
               ∧ filter (λ e, ¬ is_warning e) effects =
                   aggregate_calendar (schedule_period sample_strftime sched)
                                      sched
                   :: proctor_calendars frame_order
                        (schedule_period sample_strftime sched) sched
                   ++ [LogSuccess (schedule_period sample_strftime sched)]
               ∧ calendars_in INTERIM_DATA_DIR effects = [Event <$> sched]
               ∧ calendars_in PROCESSED_DATA_DIR effects =
                   group_calendar
                   <$> group_by frame_order app_proctor (explode sched)).
Proof.
  split; [exact frame_order_perm|].
  eexists. split; [vm_compute; reflexivity|].
  split; [vm_compute; reflexivity|]. split.
  - intros name cal Hin. apply list_elem_of_In in Hin. vm_compute in Hin.
    destruct Hin as [Heq|[]]. injection Heq as <- _. vm_compute. exact I.
  - apply (proj2 (double_bookings_never_fatal frame_order sample_zone
                    sample_uuid4 sample_strftime sample_can_open
                    frame_order_perm sample_csv sheet_with_double_booking 30)).
    vm_compute. reflexivity.
Defined.

(** C7 and C10, on a run over the sample sheet. *)
Lemma calendars_event_counts_witness :
  (∀ A (l : list A), frame_order A l ≡ₚ l)
  ∧ ∃ effects,
      main frame_order sample_zone sample_uuid4 sample_strftime
           sample_can_open
           sample_csv sample_sheet 30 = Some effects
      ∧ ∃ evs cal,
          clean_proctor_schedule frame_order sample_zone sample_sheet
          = Some evs
          ∧ calendars_in INTERIM_DATA_DIR effects = [cal]
          ∧ length cal = length evs
          ∧ (∀ n ev, evs !! n = Some ev →
               ∃ ce, cal !! n = Some ce
                     ∧ create_event sample_uuid4
                         (read_abbreviations frame_order sample_csv) n
                         (subtract_offset 30 ev) = Some ce)
          ∧ sum_list (length <$> calendars_in PROCESSED_DATA_DIR effects)
            = sum_list (length ∘ Proctor <$> evs)
          ∧ ∀ p, (∃ ev, ev ∈ evs ∧ Some p ∈ Proctor ev) →
              ∃ period cal_p,
                WriteCalendar PROCESSED_DATA_DIR
                  (period +:+ "_" +:+ p +:+ "_proctoring.ics") cal_p
                ∈ effects
                ∧ length cal_p
                  = length (filter (λ ev, Some p ∈ Proctor ev) evs).
Proof.
  split; [exact frame_order_perm|].
  eexists. split; [vm_compute; reflexivity|].
  apply (calendars_event_counts frame_order sample_zone sample_uuid4
           sample_strftime sample_can_open frame_order_perm
           sample_csv sample_sheet 30).
  vm_compute. reflexivity.
Defined.

Lemma proctor_calendars_reuse_events_witness :
  (∀ A (l : list A), frame_order A l ≡ₚ l)
  ∧ ∃ effects,
      main frame_order sample_zone sample_uuid4 sample_strftime
           sample_can_open
           sample_csv sample_sheet 30 = Some effects
      ∧ ∃ evs cal,
          clean_proctor_schedule frame_order sample_zone sample_sheet
          = Some evs
          ∧ calendars_in INTERIM_DATA_DIR effects = [cal]
          ∧ (∀ n ev p,
               evs !! n = Some ev → Some p ∈ Proctor ev →
               ∃ ce period cal_p,
                 cal !! n = Some ce
                 ∧ uid ce = sample_uuid4 n
                 ∧ WriteCalendar PROCESSED_DATA_DIR
                     (period +:+ "_" +:+ p +:+ "_proctoring.ics") cal_p
                   ∈ effects
                 ∧ ce ∈ cal_p)
          ∧ (∀ cal_p ce,
               cal_p ∈ calendars_in PROCESSED_DATA_DIR effects →
               ce ∈ cal_p → ce ∈ cal).
Proof.
  split; [exact frame_order_perm|].
  eexists. split; [vm_compute; reflexivity|].
  apply (proctor_calendars_reuse_events frame_order sample_zone sample_uuid4
           sample_strftime sample_can_open frame_order_perm
           sample_csv sample_sheet 30).
  vm_compute. reflexivity.
Defined.

(** ** The further properties on the sample inputs *)

(** X1, on the sheet with a continuation row and a blank row. *)
Lemma proctors_come_from_sheet_witness :
  (∀ A (l : list A), frame_order A l ≡ₚ l)
  ∧ ∃ evs ev,
      clean_proctor_schedule frame_order sample_zone sample_sheet = Some evs
      ∧ ev ∈ evs
      ∧ Proctor ev ≠ []
      ∧ ∀ c, c ∈ Proctor ev →
          ∃ p i r j, c = Some p ∧ sample_sheet !! i = Some r
                     ∧ proctor_cell j r = Some p.
Proof.
  split; [exact frame_order_perm|].
  eexists _, _. split; [vm_compute; reflexivity|].
  assert (∀ x : NormalizedEvent, x ∈ [x]) as Hin by (intros x; by left).
  split; [apply Hin|].
  eapply (proctors_come_from_sheet frame_order sample_zone frame_order_perm
            sample_sheet); [vm_compute; reflexivity|apply Hin].
Defined.

(** X3 and X7, on the same sheet. *)
Lemma clean_succeeds_iff_witness :
  (∀ A (l : list A), frame_order A l ≡ₚ l)
  ∧ (is_Some (clean_proctor_schedule frame_order sample_zone sample_sheet) ↔
     ∀ row, row ∈ long_frame sample_sheet →
            times_exist sample_zone (long_key row)).
Proof.
  split; [exact frame_order_perm|].
  exact (clean_succeeds_iff frame_order sample_zone frame_order_perm
           sample_sheet).
Defined.

Lemma main_completes_only_if_witness :
  (∀ A (l : list A), frame_order A l ≡ₚ l)
  ∧ is_Some (main frame_order sample_zone sample_uuid4 sample_strftime
                  sample_can_open sample_csv sample_sheet 30)
  ∧ (∀ row, row ∈ long_frame sample_sheet →
            filled_in (long_key row) ∧ times_exist sample_zone (long_key row))
  ∧ ∃ sched,
      build_sched frame_order sample_zone sample_uuid4 sample_csv
                  sample_sheet 30 = Some sched
      ∧ all_open frame_order sample_can_open
                 (schedule_period sample_strftime sched) sched.
Proof.
  split; [exact frame_order_perm|].
  assert (is_Some (main frame_order sample_zone sample_uuid4 sample_strftime
                        sample_can_open sample_csv sample_sheet 30)) as Hm.
  { vm_compute. eexists. reflexivity. }
  split; [exact Hm|].
  exact (main_completes_only_if frame_order sample_zone sample_uuid4
           sample_strftime sample_can_open frame_order_perm sample_csv
           sample_sheet 30 Hm).
Defined.

(** X4, on the cleaned frame with a make-up exam. *)
Lemma create_events_succeeds_only_if_witness :
  is_Some (create_events frame_order sample_uuid4 sample_csv sample_cleaned)
  ∧ Forall can_build sample_cleaned.
Proof.
  assert (is_Some (create_events frame_order sample_uuid4 sample_csv
                                 sample_cleaned)) as Hc.
  { vm_compute. eexists. reflexivity. }
  split; [exact Hc|].
  exact (create_events_succeeds_only_if frame_order sample_uuid4 sample_csv
           sample_cleaned Hc).
Defined.

(** X5, on the cleaned frame with a make-up exam, with a [uuid4] that
    never repeats. *)
Lemma event_uids_distinct_witness :
  ∃ events,
    create_events frame_order (λ n, String.concat "" (replicate n "u"))
                  sample_csv sample_cleaned = Some events
    ∧ NoDup (uid <$> events)
    ∧ length events = length sample_cleaned
    ∧ Forall (λ ev, summary ev = "Proctoring") events.
Proof.
  eexists. split; [vm_compute; reflexivity|].
  apply (event_uids_distinct frame_order
           (λ n, String.concat "" (replicate n "u")) sample_csv sample_cleaned).
  - assert (∀ n, String.length (String.concat "" (replicate n "u")) = n)
      as Hlen.
    { induction n as [|n IH]; [reflexivity|].
      destruct n as [|n]; [reflexivity|].
      change (S (String.length (String.concat "" (replicate (S n) "u")))
              = S (S n)).
      f_equal. exact IH. }
    intros i j Hij. apply (f_equal String.length) in Hij.
    rewrite !Hlen in Hij. exact Hij.
  - vm_compute. reflexivity.
Defined.

(** X6, X9 and X10, on a run over the sample sheet. *)
Lemma events_start_offset_early_witness :
  (∀ A (l : list A), frame_order A l ≡ₚ l)
  ∧ ∃ effects,
      main frame_order sample_zone sample_uuid4 sample_strftime
           sample_can_open
           sample_csv sample_sheet 30 = Some effects
      ∧ ∃ evs cal,
          clean_proctor_schedule frame_order sample_zone sample_sheet
          = Some evs
          ∧ calendars_in INTERIM_DATA_DIR effects = [cal]
          ∧ ∀ n ev, evs !! n = Some ev →
              ∃ ce start end_,
                cal !! n = Some ce
                ∧ Start_time (ev_key ev) = Some start
                ∧ End_time (ev_key ev) = Some end_
                ∧ dtstart ce = (start - 30 * 60000)%Z
                ∧ dtend ce = end_.
Proof.
  split; [exact frame_order_perm|].
  eexists. split; [vm_compute; reflexivity|].
  apply (events_start_offset_early frame_order sample_zone sample_uuid4
           sample_strftime sample_can_open frame_order_perm
           sample_csv sample_sheet 30).
  vm_compute. reflexivity.
Defined.

Lemma proctor_file_names_distinct_witness :
  (∀ A (l : list A), frame_order A l ≡ₚ l)
  ∧ ∃ effects,
      main frame_order sample_zone sample_uuid4 sample_strftime
           sample_can_open
           sample_csv sample_sheet 30 = Some effects
      ∧ NoDup (names_in PROCESSED_DATA_DIR effects).
Proof.
  split; [exact frame_order_perm|].
  eexists. split; [vm_compute; reflexivity|].
  apply (proctor_file_names_distinct frame_order sample_zone sample_uuid4
           sample_strftime sample_can_open frame_order_perm
           sample_csv sample_sheet 30).
  vm_compute. reflexivity.
Defined.

Lemma proctor_calendar_is_restriction_witness :
  (∀ A (l : list A), frame_order A l ≡ₚ l)
  ∧ ∃ effects,
      main frame_order sample_zone sample_uuid4 sample_strftime
           sample_can_open
           sample_csv sample_sheet 30 = Some effects
      ∧ ∃ sched,
          build_sched frame_order sample_zone sample_uuid4 sample_csv
                      sample_sheet 30 = Some sched
          ∧ calendars_in INTERIM_DATA_DIR effects = [Event <$> sched]
          ∧ ∀ name cal_p,
              WriteCalendar PROCESSED_DATA_DIR name cal_p ∈ effects →
              ∃ p,
                name = schedule_period sample_strftime sched +:+ "_" +:+ p
                       +:+ "_proctoring.ics"
                ∧ cal_p
                  = Event <$> filter (λ s, Some p ∈ sched_proctors s) sched
                ∧ cal_p ≠ [].
Proof.
  split; [exact frame_order_perm|].
  eexists. split; [vm_compute; reflexivity|].
  apply (proctor_calendar_is_restriction frame_order sample_zone sample_uuid4
           sample_strftime sample_can_open frame_order_perm
           sample_csv sample_sheet 30).
  vm_compute. reflexivity.
Defined.

(** X8, on the sheet whose row names no proctor. *)
Lemma run_without_proctors_witness :
  (∀ A (l : list A), frame_order A l ≡ₚ l)
  ∧ Forall (λ r, Forall (λ c, c = None) (raw_proctors r))
           sheet_without_proctors
  ∧ main frame_order sample_zone sample_uuid4 sample_strftime
           sample_can_open
         sample_csv sheet_without_proctors 30
    = Some [WriteCalendar INTERIM_DATA_DIR "None_proctoring.ics" [];
            LogSuccess "None"].
Proof.
  split; [exact frame_order_perm|].
  assert (Forall (λ r, Forall (λ c, c = None) (raw_proctors r))
                 sheet_without_proctors) as Hall.
  { repeat constructor. }
  split; [exact Hall|].
  exact (run_without_proctors frame_order sample_zone sample_uuid4
           sample_strftime sample_can_open frame_order_perm sample_csv
           sheet_without_proctors 30 Hall).
Defined.

(** X12, on the double booking of proctor A. *)
Lemma double_bookings_asymmetric_witness :
  (∀ A (l : list A), frame_order A l ≡ₚ l)
  ∧ (mkAppointment (sched_key booking_in_X) (Some "A") (Event booking_in_X),
     mkAppointment (sched_key booking_in_Y) (Some "A") (Event booking_in_Y))
    ∈ double_bookings frame_order [booking_in_X; booking_in_Y]
  ∧ ((mkAppointment (sched_key booking_in_Y) (Some "A") (Event booking_in_Y),
      mkAppointment (sched_key booking_in_X) (Some "A") (Event booking_in_X))
     ∉ double_bookings frame_order [booking_in_X; booking_in_Y])
  ∧ mkAppointment (sched_key booking_in_X) (Some "A") (Event booking_in_X)
    ≠ mkAppointment (sched_key booking_in_Y) (Some "A") (Event booking_in_Y).
Proof.
  split; [exact frame_order_perm|].
  assert ((mkAppointment (sched_key booking_in_X) (Some "A")
             (Event booking_in_X),
           mkAppointment (sched_key booking_in_Y) (Some "A")
             (Event booking_in_Y))
          ∈ double_bookings frame_order [booking_in_X; booking_in_Y]) as Hin.
  { vm_compute. left. }
  split; [exact Hin|].
  exact (double_bookings_asymmetric frame_order frame_order_perm _ _ _ Hin).
Defined.

(** X13, on a building that holds neither S nor SC. *)
Lemma unknown_building_unchanged_witness :
  (∀ A (l : list A), frame_order A l ≡ₚ l)
  ∧ substitute (read_abbreviations frame_order sample_csv) "X" = "X".
Proof.
  split; [exact frame_order_perm|].
  apply (unknown_building_unchanged frame_order frame_order_perm).
  intros a Ha. split.
  - apply list_elem_of_In in Ha. simpl in Ha.
    destruct Ha as [<-|[<-|[]]]; discriminate.
  - apply list_elem_of_In in Ha. simpl in Ha.
    destruct Ha as [<-|[<-|[]]];
      intros ([|c [|c' before]] & after & H); discriminate H.
Defined.
